(** * Source-mapping resolution of the typst preview DOM

    A shallow embedding of [tools/typst-dom/src/typst-debug-info.mts]:
    the classification of rendered elements, the descent of
    [resolveSourceLeaf] along a source path, the ascent and the
    coordinate conversion of [resolveFrameLoc], the click-handler
    registration on a document root and the scroll heuristic of
    [scrollTo].

    JavaScript numbers that are used as indices and kinds are integers
    ([Z]); numbers that are coordinates are IEEE 754 binary64 values
    (the kernel's primitive floats), with the operations in the order the
    source writes them. *)

From Stdlib Require Import List ZArith String Ascii Bool Lia Floats.
Import ListNotations.

Open Scope string_scope.
Open Scope list_scope.
Open Scope Z_scope.

(** ** Outcomes of a JavaScript call *)

(** A call either returns a value or throws.  The only exception the
    modelled functions can raise is the [TypeError] of a property read on
    [undefined]. *)
Inductive outcome (A : Type) : Type :=
| Return (a : A)
| Throw.
Arguments Return {A} a.
Arguments Throw {A}.

(** ** The rendered tree *)

Module Dom.

(** An element: its class list, its attributes and its element children
    in document order. *)
#[warnings="-register-all"]
Inductive Element : Type :=
| Elem (classList : list string) (attributes : list (string * string))
       (children : list Element).

Definition classList (e : Element) : list string :=
  match e with Elem cl _ _ => cl end.

Definition attributes (e : Element) : list (string * string) :=
  match e with Elem _ at_ _ => at_ end.

Definition children (e : Element) : list Element :=
  match e with Elem _ _ ch => ch end.

(** [classList.contains(cls)] *)
Definition contains (cl : list string) (cls : string) : bool :=
  existsb (String.eqb cls) cl.

(** [elem.getAttribute(name)]: [None] is JavaScript's [null]. *)
Fixpoint lookupAttr (at_ : list (string * string)) (name : string) : option string :=
  match at_ with
  | [] => None
  | (k, v) :: rest => if String.eqb k name then Some v else lookupAttr rest name
  end.

Definition getAttribute (e : Element) (name : string) : option string :=
  lookupAttr (attributes e) name.

(** The descendants of an element in document (pre-)order, the element
    itself excluded: the order of [getElementsByClassName]. *)
Fixpoint descendants (e : Element) : list Element :=
  match e with
  | Elem _ _ ch =>
      (fix go (l : list Element) : list Element :=
         match l with
         | [] => []
         | c :: rest => (c :: descendants c) ++ go rest
         end) ch
  end.

Definition descendantsOfList (l : list Element) : list Element :=
  flat_map (fun c => c :: descendants c) l.

(** [elem.getElementsByClassName(cls)] *)
Definition getElementsByClassName (e : Element) (cls : string) : list Element :=
  filter (fun d => contains (classList d) cls) (descendants e).

End Dom.
Import Dom.

(** ** Kinds and path points *)

Inductive SourceMappingType : Type :=
| Text | Group | Image | Shape | Page | CharIndex.

(** The numeric value of each member of the [const enum]. *)
Definition typeCode (ty : SourceMappingType) : Z :=
  match ty with
  | Text => 0 | Group => 1 | Image => 2 | Shape => 3 | Page => 4 | CharIndex => 5
  end.

Record ElementPoint : Type := mkPoint {
  kind : Z;
  index : Z;
  fingerprint : string
}.

Definition CssClassToType : list (string * SourceMappingType) :=
  [ ("typst-text", Text);
    ("typst-group", Group);
    ("typst-image", Image);
    ("typst-shape", Shape);
    ("typst-page", Page);
    ("tsel", CharIndex) ].

(** ** Classification *)

(** The loop of [castToSourceMappingElement] over the table. *)
Fixpoint firstClassIn (table : list (string * SourceMappingType)) (cl : list string)
  : option SourceMappingType :=
  match table with
  | [] => None
  | (cls, ty) :: rest => if contains cl cls then Some ty else firstClassIn rest cl
  end.

Definition kindOfClassList (cl : list string) : option SourceMappingType :=
  match cl with
  | [] => None
  | _ => firstClassIn CssClassToType cl
  end.

Definition SourceMappingElement : Type := SourceMappingType * Element * string.

Definition castToSourceMappingElement (elem : Element) : option SourceMappingElement :=
  match kindOfClassList (classList elem) with
  | Some ty => Some (ty, elem, "")
  | None => None
  end.

(** The [while] loop follows single children, so it is a structural
    recursion on the element. *)
Fixpoint castToNestSourceMappingElement (elem : Element) : option SourceMappingElement :=
  match castToSourceMappingElement elem with
  | Some result => Some result
  | None =>
      match elem with
      | Elem _ _ [c] => castToNestSourceMappingElement c
      | Elem _ _ _ => None
      end
  end.

(** [.map(f).filter((x) => x)] *)
Fixpoint filterMap {A B : Type} (f : A -> option B) (l : list A) : list B :=
  match l with
  | [] => []
  | a :: rest =>
      match f a with
      | Some b => b :: filterMap f rest
      | None => filterMap f rest
      end
  end.

Definition castChildrenToSourceMappingElement (elem : Element) : list SourceMappingElement :=
  filterMap castToNestSourceMappingElement (children elem).

(** ** The path resolver *)

(** The value of [resolveSourceLeaf]: [None] is [undefined]; in a returned
    pair the element is [curElem], which is itself [undefined] ([None])
    when the tree holds no page. *)
Definition Leaf : Type := option (option Element * Z).

(** [children[point.index]]: an array read, [undefined] outside the array. *)
Definition arrayGet {A : Type} (l : list A) (i : Z) : option A :=
  if i <? 0 then None else nth_error l (Z.to_nat i).

(** The body of the [for] loop, one point at a time. *)
Fixpoint resolveLoop (curElem : option Element) (points : list ElementPoint)
  : outcome Leaf :=
  match points with
  | [] => Return (Some (curElem, 0))
  | point :: rest =>
      if kind point =? typeCode CharIndex then Return (Some (curElem, index point))
      else
        match curElem with
        | None => Throw
        | Some cur =>
            let children := castChildrenToSourceMappingElement cur in
            if index point >=? Z.of_nat (List.length children) then Return None
            else
              match arrayGet children (index point) with
              | None => Throw
              | Some (ty, child, _) =>
                  if negb (kind point =? typeCode ty) then Return None
                  else resolveLoop (Some child) rest
              end
        end
  end.

(** [path.slice(1)] *)
Definition slice1 {A : Type} (l : list A) : list A := tl l.

Definition resolveSourceLeaf (elem : Element) (path : list ElementPoint) : outcome Leaf :=
  let page := hd_error (getElementsByClassName elem "typst-page") in
  resolveLoop page (slice1 path).

(** *** What a path denotes

    The node a sequence of points leads to from [cur]: each point picks
    the classified child at its index, which has to be of the point's
    kind.  A [CharIndex] point picks no child. *)

Definition selectChild (cur : Element) (point : ElementPoint) : option Element :=
  match arrayGet (castChildrenToSourceMappingElement cur) (index point) with
  | Some (ty, child, _) => if kind point =? typeCode ty then Some child else None
  | None => None
  end.

Fixpoint follow (cur : option Element) (points : list ElementPoint)
  : option (option Element) :=
  match points with
  | [] => Some cur
  | point :: rest =>
      if kind point =? typeCode CharIndex then None
      else
        match cur with
        | None => None
        | Some c =>
            match selectChild c point with
            | Some child => follow (Some child) rest
            | None => None
            end
        end
  end.

(** ** Pass-through wrappers

    A wrapper is an element without a kind class and with one child.  The
    relations below say where one wrapper is put into a tree: somewhere on
    the chain of nodes that [resolveSourceLeaf] visits for a path. *)

Module Wrap.
Section Wrapper.
Variables (wcl : list string) (wat : list (string * string)).

Definition wrapper (c : Element) : Element := Elem wcl wat [c].

(** [wrapNest c c']: the wrapper is put around [c] or around a node of
    the single-child chain of unclassified nodes below [c]; the chain
    ends at the first classified node, so the wrapper sits at or above
    the node [castToNestSourceMappingElement c] yields. *)
Inductive wrapNest : Element -> Element -> Prop :=
| wrapNest_here c : wrapNest c (wrapper c)
| wrapNest_down cl at_ c c' :
    kindOfClassList cl = None ->
    wrapNest c c' ->
    wrapNest (Elem cl at_ [c]) (Elem cl at_ [c']).

(** [nestReplace n n' c c']: [c'] is [c] with the classified node [n] at
    the end of its single-child chain replaced by [n']. *)
Inductive nestReplace (n n' : Element) : Element -> Element -> Prop :=
| nestReplace_here :
    kindOfClassList (classList n) <> None ->
    nestReplace n n' n n'
| nestReplace_down cl at_ c c' :
    kindOfClassList cl = None ->
    nestReplace n n' c c' ->
    nestReplace n n' (Elem cl at_ [c]) (Elem cl at_ [c']).

(** [wrapChain cur points cur']: [cur'] is [cur] with the wrapper put on
    the chain that [points] descends from [cur]: between [cur] and the
    node the first point selects (that node included), or further down
    along the rest of the points.  The direct child [c] is the one that
    provides the classified entry at the point's index. *)
Inductive wrapChain : Element -> list ElementPoint -> Element -> Prop :=
| wrapChain_here cl at_ l c r c' point rest entry :
    kind point <> typeCode CharIndex ->
    index point = Z.of_nat (List.length (filterMap castToNestSourceMappingElement l)) ->
    castToNestSourceMappingElement c = Some entry ->
    wrapNest c c' ->
    wrapChain (Elem cl at_ (l ++ c :: r)) (point :: rest) (Elem cl at_ (l ++ c' :: r))
| wrapChain_below cl at_ l c r c' point rest ty n s n' :
    kind point <> typeCode CharIndex ->
    index point = Z.of_nat (List.length (filterMap castToNestSourceMappingElement l)) ->
    castToNestSourceMappingElement c = Some (ty, n, s) ->
    wrapChain n rest n' ->
    nestReplace n n' c c' ->
    wrapChain (Elem cl at_ (l ++ c :: r)) (point :: rest) (Elem cl at_ (l ++ c' :: r)).

Definition hasPageClass (e : Element) : bool := contains (classList e) "typst-page".

(** No element of the forest, at any depth, is a page. *)
Definition noPage (l : list Element) : Prop :=
  filter hasPageClass (descendantsOfList l) = [].

(** [atFirstPage p p' l l']: the forest [l'] is [l] with its first page
    in document order, [p], replaced by [p']. *)
Inductive atFirstPage (p p' : Element) : list Element -> list Element -> Prop :=
| atFirstPage_here l r :
    noPage l ->
    hasPageClass p = true ->
    atFirstPage p p' (l ++ p :: r) (l ++ p' :: r)
| atFirstPage_down l cl at_ ch ch' r :
    noPage l ->
    contains cl "typst-page" = false ->
    atFirstPage p p' ch ch' ->
    atFirstPage p p' (l ++ Elem cl at_ ch :: r) (l ++ Elem cl at_ ch' :: r).

(** [wrapDescent T points T']: [T'] is [T] with the wrapper put on the
    descent chain of [points]: around the page the descent starts from,
    or below it along the points. *)
Inductive wrapDescent : Element -> list ElementPoint -> Element -> Prop :=
| wrapDescent_page cl at_ ch ch' p points :
    atFirstPage p (wrapper p) ch ch' ->
    wrapDescent (Elem cl at_ ch) points (Elem cl at_ ch')
| wrapDescent_chain cl at_ ch ch' p p' points :
    atFirstPage p p' ch ch' ->
    wrapChain p points p' ->
    wrapDescent (Elem cl at_ ch) points (Elem cl at_ ch').
End Wrapper.
End Wrap.

(** ** References into a document

    The click locator walks to parents and to preceding siblings and
    compares elements by identity, so there an element is a reference into
    one document: the child indices from the document element down to the
    node, innermost first. *)

Module Ref.

Definition NodeRef : Type := list nat.

Fixpoint nodeAt (doc : Element) (r : NodeRef) : option Element :=
  match r with
  | [] => Some doc
  | i :: up =>
      match nodeAt doc up with
      | Some parent => nth_error (children parent) i
      | None => None
      end
  end.

(** [elem.parentElement]; [None] is [null]. *)
Definition parentElement (r : NodeRef) : option NodeRef :=
  match r with
  | [] => None
  | _ :: up => Some up
  end.

(** [elem.previousElementSibling] *)
Definition previousElementSibling (r : NodeRef) : option NodeRef :=
  match r with
  | S j :: up => Some (j :: up)
  | _ => None
  end.

(** [a === b] on elements of one document *)
Definition same (a b : NodeRef) : bool :=
  if list_eq_dec Nat.eq_dec a b then true else false.

End Ref.
Import Ref.

(** ** The click locator *)

Record DOMRect : Type := mkRect {
  left : float;
  top : float;
  width : float;
  height : float
}.

Record MouseEvent : Type := mkEvent {
  clientX : float;
  clientY : float
}.

Record FrameLoc : Type := mkFrameLoc {
  page_no : float;
  x : float;
  y : float
}.

(** What the browser provides: layout and the number parsers. *)
Record Host : Type := mkHost {
  getBoundingClientRect : NodeRef -> DOMRect;
  parseFloat : string -> float;
  parseInt : string -> float
}.

Definition SourceMappingRef : Type := SourceMappingType * NodeRef * string.

(** [castToSourceMappingElement] on a reference; the element of the
    result is the reference itself. *)
Definition castRef (doc : Element) (r : NodeRef) : option SourceMappingRef :=
  match nodeAt doc r with
  | Some e =>
      match castToSourceMappingElement e with
      | Some (ty, _, s) => Some (ty, r, s)
      | None => None
      end
  | None => None
  end.

Definition isPage (m : option SourceMappingRef) : bool :=
  match m with
  | Some (ty, _, _) => typeCode ty =? typeCode Page
  | None => false
  end.

(** The [while (elem)] loop of [resolveFrameLoc].  [None] is the
    [return] taken at [docRoot]; [Some m] is the loop left with
    [mayPageElem = m], by [break] or because [elem] became [null].  A
    reference that denotes no element stands for [null]. *)
Fixpoint ascend (doc : Element) (docRoot : NodeRef) (elem : NodeRef)
    (mayPageElem : option SourceMappingRef) : option (option SourceMappingRef) :=
  match nodeAt doc elem with
  | None => Some mayPageElem
  | Some _ =>
      let mayPageElem := castRef doc elem in
      if isPage mayPageElem then Some mayPageElem
      else if same elem docRoot then None
      else
        match elem with
        | [] => Some mayPageElem
        | _ :: up => ascend doc docRoot up mayPageElem
        end
  end.

(** The walk from [pre ++ anc] passes the elements strictly below [anc]:
    each of them exists, is no page and is not the root. *)
Fixpoint passes (doc : Element) (docRoot : NodeRef) (pre anc : NodeRef) : Prop :=
  match pre with
  | [] => True
  | i :: pre' =>
      nodeAt doc (i :: pre' ++ anc) <> None
      /\ isPage (castRef doc (i :: pre' ++ anc)) = false
      /\ same (i :: pre' ++ anc) docRoot = false
      /\ passes doc docRoot pre' anc
  end.

Definition optionEqb (a b : option string) : bool :=
  match a, b with
  | Some s, Some t => String.eqb s t
  | None, None => true
  | _, _ => false
  end.

Definition isBackgroundOf (doc : Element) (pageNumber : option string) (r : NodeRef) : bool :=
  match nodeAt doc r with
  | Some cur =>
      contains (classList cur) "typst-page-inner"
      && optionEqb (getAttribute cur "data-page-number") pageNumber
  | None => false
  end.

(** The loop of [getNthBackgroundRect] from the sibling at index [i]
    under [up] backwards; [elem] is the fallback. *)
Fixpoint backgroundFrom (doc : Element) (pageNumber : option string)
    (elem : NodeRef) (up : NodeRef) (i : nat) : NodeRef :=
  if isBackgroundOf doc pageNumber (i :: up) then i :: up
  else
    match i with
    | O => elem
    | S j => backgroundFrom doc pageNumber elem up j
    end.

Definition getNthBackgroundRect (doc : Element) (elem : NodeRef)
    (pageNumber : option string) : NodeRef :=
  match elem with
  | [] => elem
  | i :: up => backgroundFrom doc pageNumber elem up i
  end.

(** [!s] for a value that is a string or [null]. *)
Definition falsy (s : option string) : bool :=
  match s with
  | None => true
  | Some t => String.eqb t ""
  end.

Definition attrOf (doc : Element) (r : NodeRef) (name : string) : option string :=
  match nodeAt doc r with
  | Some e => getAttribute e name
  | None => None
  end.

Definition resolveFrameLoc (host : Host) (doc : Element) (docRoot : NodeRef)
    (event : MouseEvent) (elem : NodeRef) : option FrameLoc :=
  let x := clientX event in
  let y := clientY event in
  match ascend doc docRoot elem None with
  | None => None
  | Some None => None
  | Some (Some (_, pageElem, _)) =>
      let pageNumber := attrOf doc pageElem "data-page-number" in
      (* [getNthBackgroundRect] falls back to its argument and never
         yields [null], so the test [!backgroundRect] does not fire. *)
      let backgroundRect := getNthBackgroundRect doc pageElem pageNumber in
      let pageRect := getBoundingClientRect host backgroundRect in
      let pageX := (x - left pageRect)%float in
      let pageY := (y - top pageRect)%float in
      let xPercent := (pageX / width pageRect)%float in
      let yPercent := (pageY / height pageRect)%float in
      let dataWidthS := attrOf doc pageElem "data-page-width" in
      let dataHeightS := attrOf doc pageElem "data-page-height" in
      if falsy pageNumber || falsy dataWidthS || falsy dataHeightS then None
      else
        match pageNumber, dataWidthS, dataHeightS with
        | Some pn, Some ws, Some hs =>
            let dataWidth := parseFloat host ws in
            let dataHeight := parseFloat host hs in
            Some {| page_no := (parseInt host pn + 1)%float;
                    x := (xPercent * dataWidth)%float;
                    y := (yPercent * dataHeight)%float |}
        | _, _, _ => None (* not reached: [null] is falsy *)
        end
  end.

(** ** Handler registration

    The state this module keeps on document roots: the
    [sourceMappingHandler] property of each root and its list of click
    listeners.  A handler is a closure; every installation allocates a new
    one, told apart by a number. *)

Module Handlers.

Definition Handler : Type := nat.

Record RootState : Type := mkRoot {
  sourceMappingHandler : option Handler;
  clickListeners : list Handler
}.

Record Store : Type := mkStore {
  roots : nat -> RootState;
  nextHandler : Handler
}.

Definition freshRoot : RootState :=
  {| sourceMappingHandler := None; clickListeners := [] |}.

Definition emptyStore : Store :=
  {| roots := fun _ => freshRoot; nextHandler := O |}.

Definition setRoot (docRoot : nat) (st : RootState) (s : Store) : Store :=
  {| roots := fun r => if Nat.eqb r docRoot then st else roots s r;
     nextHandler := nextHandler s |}.

(** [removeEventListener("click", h)]: a list of listeners holds a
    listener at most once. *)
Definition removeEventListener (h : Handler) (l : list Handler) : list Handler :=
  filter (fun k => negb (Nat.eqb k h)) l.

(** [addEventListener("click", h)]: a listener already in the list is not
    added again. *)
Definition addEventListener (h : Handler) (l : list Handler) : list Handler :=
  if existsb (Nat.eqb h) l then l else l ++ [h].

Definition removeSourceMappingHandler (docRoot : nat) (s : Store) : Store :=
  let st := roots s docRoot in
  match sourceMappingHandler st with
  | Some prevSourceMappingHandler =>
      setRoot docRoot
        {| sourceMappingHandler := None;
           clickListeners := removeEventListener prevSourceMappingHandler (clickListeners st) |}
        s
  | None => s
  end.

Definition installEditorJumpToHandler (docRoot : nat) (s : Store) : Store :=
  let s := removeSourceMappingHandler docRoot s in
  let handler := nextHandler s in
  let st := roots s docRoot in
  setRoot docRoot
    {| sourceMappingHandler := Some handler;
       clickListeners := addEventListener handler (clickListeners st) |}
    {| roots := roots s; nextHandler := S handler |}.

(** One click on [docRoot]: every listener runs once, and each run of a
    source-mapping handler is one call of [resolveFrameLoc]. *)
Definition resolutionAttempts (docRoot : nat) (s : Store) : nat :=
  List.length (clickListeners (roots s docRoot)).

Inductive Op : Type :=
| Install (docRoot : nat)
| Remove (docRoot : nat).

Definition step (s : Store) (op : Op) : Store :=
  match op with
  | Install r => installEditorJumpToHandler r s
  | Remove r => removeSourceMappingHandler r s
  end.

Definition run (ops : list Op) (s : Store) : Store := fold_left step ops s.

(** The property of a root and its listeners agree: the listeners are the
    stored handler, if there is one, and nothing else. *)
Definition consistent (st : RootState) : Prop :=
  clickListeners st
  = match sourceMappingHandler st with
    | Some h => [h]
    | None => []
    end.

End Handlers.

(** ** The scroll heuristic *)

(** [PreviewMode] is declared in [typst-doc.mts]; [scrollTo] tests for its
    member [Slide] only. *)
Inductive PreviewMode : Type :=
| Doc
| Slide.

Definition isSlide (m : PreviewMode) : bool :=
  match m with Slide => true | Doc => false end.

(** The window as [scrollTo] reads it: the viewport size and the bounding
    rectangle of [document.body || document.firstElementChild]. *)
Record Window : Type := mkWindow {
  innerWidth : float;
  innerHeight : float;
  basePos : DOMRect
}.

(** The calls [scrollTo] makes on its collaborators, in order. *)
Inductive Effect : Type :=
| SetPartialPageNumber (pageNo : float)
| WindowScrollTo (behavior : string) (left top : float)
| TriggerRipple (left top : float) (className animation : string).

Module Scroll.
Section Target.
Variables (win : Window) (pageRect : DOMRect) (innerLeft innerTop : float).

Local Open Scope float_scope.

Definition left_ : float := innerLeft - left (basePos win).
Definition top_ : float := innerTop - top (basePos win).

#[warnings="-inexact-float"]
Definition pw : float := innerWidth win * 0.01.
#[warnings="-inexact-float"]
Definition ph : float := innerHeight win * 0.01.

Definition xOffsetInnerFix : float := 7 * pw.
#[warnings="-inexact-float"]
Definition yOffsetInnerFix : float := 38.2 * ph.

Definition xOffset : float := left_ - xOffsetInnerFix.
Definition yOffset : float := top_ - yOffsetInnerFix.

Definition widthOccupied : float := (100 * 100 * pw) / width pageRect.

Definition pageAdjustLeft : float := left pageRect - left (basePos win) - 5 * pw.
Definition pageAdjust : float :=
  left pageRect - left (basePos win) + width pageRect - 95 * pw.

(** [a >= b] is [b <= a], [a > b] is [b < a]; every comparison with a
    NaN is false. *)
Definition scrollTarget : float * float :=
  if (90 <=? widthOccupied) || (widthOccupied <? 50) then (xOffset, yOffset)
  else
    let xOffsetAdjsut := if pageAdjust <? xOffset then pageAdjust else pageAdjustLeft in
    (xOffsetAdjsut, yOffset).
End Target.
End Scroll.

Definition scrollTo (previewMode : PreviewMode) (win : Window)
    (pageRect : DOMRect) (pageNo innerLeft innerTop : float) : list Effect :=
  if isSlide previewMode then [SetPartialPageNumber pageNo]
  else
    let '(l, t) := Scroll.scrollTarget win pageRect innerLeft innerTop in
    [ WindowScrollTo "smooth" l t;
      TriggerRipple (Scroll.left_ win innerLeft) (Scroll.top_ win innerTop)
        "typst-jump-ripple" "typst-jump-ripple-effect .4s linear" ].

(** ** Sample trees *)

Module Sample.

Definition text : Element := Elem ["typst-text"] [] [].
Definition group : Element := Elem ["typst-group"] [] [text].
Definition page : Element := Elem ["typst-page"] [] [Elem [] [] [group]; text].
Definition doc : Element := Elem [] [] [page].
Definition root : ElementPoint := mkPoint 4 0 "".

(** A document for the click locator: under the body, a root that holds
    the background layer and the page [0] of declared size [600] by
    [800], and next to the root an element outside of it. *)
Definition pageAttributes (w h : string) : list (string * string) :=
  [("data-page-number", "0"); ("data-page-width", w); ("data-page-height", h)].

Definition clickDoc (w h : string) : Element :=
  Elem [] []
    [ Elem ["typst-doc"] []
        [ Elem ["typst-page-inner"] [("data-page-number", "0")] [];
          Elem ["typst-page"] (pageAttributes w h) [Elem ["typst-group"] [] [text]] ];
      Elem [] [] [] ].

Definition clickRoot : NodeRef := [0%nat].
Definition clickTarget : NodeRef := [0%nat; 0%nat; 1%nat; 0%nat].

(** A tree whose top element is a group that carries page attributes;
    the root and the target are siblings below it. *)
Definition strayDoc : Element :=
  Elem ["typst-group"] (pageAttributes "600" "800") [Elem [] [] []; Elem [] [] []].

Definition strayRoot : NodeRef := [0%nat].
Definition strayTarget : NodeRef := [1%nat].

(** A viewport of 1000 by 800 pixels whose body starts at the origin, a
    page as wide as the viewport and a page of 10/7 of its width. *)
Definition window : Window := mkWindow 1000 800 (mkRect 0 0 1000 5000).
Definition widePage : DOMRect := mkRect 0 100 1000 1400.
#[warnings="-inexact-float"]
Definition columnPage : DOMRect := mkRect 20 100 1428.5714285714287 2000.

Definition rect : DOMRect := mkRect 100 50 200 100.
Definition click : MouseEvent := mkEvent 150 75.

End Sample.

(** A stand-in for the browser in the examples: every element has the
    rectangle [rect], and [parseNumber] reads a string of decimal digits
    as its value and any other string as NaN, as [Number.parseFloat] and
    [Number.parseInt] do on strings of digits and on strings that start
    with a letter. *)
Module SampleHost.

Definition digit (c : ascii) : option Z :=
  let n := Z.of_nat (nat_of_ascii c) in
  if (48 <=? n) && (n <=? 57) then Some (n - 48) else None.

Fixpoint digits (acc : Z) (s : string) : option Z :=
  match s with
  | EmptyString => Some acc
  | String c rest =>
      match digit c with
      | Some d => digits (10 * acc + d) rest
      | None => None
      end
  end.

Definition parseNumber (s : string) : float :=
  match s with
  | EmptyString => nan
  | _ =>
      match digits 0 s with
      | Some n => PrimFloat.of_uint63 (Uint63.of_Z n)
      | None => nan
      end
  end.

Definition host (rect : DOMRect) : Host :=
  {| getBoundingClientRect := fun _ => rect;
     parseFloat := parseNumber;
     parseInt := parseNumber |}.

End SampleHost.

(** ** The body of the click handler

    What [sourceMappingHandler] does with one click: the calls it makes
    on the websocket and on the ripple animation, in order.  The message
    is the text ["src-point "] followed by the JSON of the location; the
    trace records the location itself. *)

Module Click.

Inductive Call : Type :=
| WebsocketSend (command : string) (frameLoc : FrameLoc)
| Ripple (left top : float) (className animation : string).

(** [triggerWindow] is [document.body || document.firstElementChild];
    [target] is [event.target]. *)
Definition sourceMappingHandler (host : Host) (doc : Element) (docRoot : NodeRef)
    (triggerWindow : NodeRef) (event : MouseEvent) (target : NodeRef) : list Call :=
  match resolveFrameLoc host doc docRoot event target with
  | None => []
  | Some frameLoc =>
      let basePos := getBoundingClientRect host triggerWindow in
      let left := (clientX event - left basePos)%float in
      let top := (clientY event - top basePos)%float in
      [ WebsocketSend "src-point " frameLoc;
        Ripple left top "typst-debug-react-ripple"
          "typst-debug-react-ripple-effect .4s linear" ]
  end.

End Click.

(** ** The document mixin

    The constructor of [DebugJumpDocument] after [super(...)], on the
    fields of the context it reads: [opts.sourceMapping], [hookedElem] and
    [disposeList].  A disposer is a closure that reads [this.hookedElem]
    when it runs. *)

Module JumpDoc.

Definition Disposer : Type := option nat -> Handlers.Store -> Handlers.Store.

Record Context : Type := mkContext {
  sourceMapping : option bool;
  hookedElem : option nat;
  disposeList : list Disposer
}.

(** The closure pushed on [disposeList]. *)
Definition removeOnDispose : Disposer :=
  fun hookedElem s =>
    match hookedElem with
    | Some docRoot => Handlers.removeSourceMappingHandler docRoot s
    | None => s
    end.

(** [opts.sourceMapping !== false]; [None] is an option left out. *)
Definition enabled (sourceMapping : option bool) : bool :=
  match sourceMapping with
  | Some false => false
  | _ => true
  end.

(** Without a hooked element the installation reads a property of
    [undefined]. *)
Definition construct (ctx : Context) (s : Handlers.Store)
  : outcome (Context * Handlers.Store) :=
  if enabled (sourceMapping ctx) then
    match hookedElem ctx with
    | None => Throw
    | Some docRoot =>
        Return ({| sourceMapping := sourceMapping ctx;
                   hookedElem := hookedElem ctx;
                   disposeList := disposeList ctx ++ [removeOnDispose] |},
                Handlers.installEditorJumpToHandler docRoot s)
    end
  else Return (ctx, s).

End JumpDoc.

(** ** Notions for the statements *)

(** [singleChain e n]: [n] is [e] or is reached from [e] through
    unclassified elements that have one child each. *)
Inductive singleChain : Element -> Element -> Prop :=
| singleChain_here e : singleChain e e
| singleChain_down cl at_ c n :
    kindOfClassList cl = None ->
    singleChain c n ->
    singleChain (Elem cl at_ [c]) n.

(** What the resolver reads of a point. *)
Definition shape (point : ElementPoint) : Z * Z := (kind point, index point).

(** The root an operation is applied to. *)
Definition opRoot (op : Handlers.Op) : nat :=
  match op with
  | Handlers.Install r => r
  | Handlers.Remove r => r
  end.

Definition isInstall (op : Handlers.Op) : bool :=
  match op with
  | Handlers.Install _ => true
  | Handlers.Remove _ => false
  end.

(** One wrapper, of any unclassified class list and any attributes, put
    on the descent chain of [points]. *)
Definition wrapStep (points : list ElementPoint) (T T' : Element) : Prop :=
  exists wcl wat, kindOfClassList wcl = None /\ Wrap.wrapDescent wcl wat T points T'.

(** Wrappers put on the descent chain one after another. *)
Inductive wrapSteps (points : list ElementPoint) : Element -> Element -> Prop :=
| wrapSteps_none T : wrapSteps points T T
| wrapSteps_more T T' T'' :
    wrapStep points T T' ->
    wrapSteps points T' T'' ->
    wrapSteps points T T''.

(** * Properties *)

(** ** The path resolver *)

Lemma arrayGet_lt {A : Type} (l : list A) (i : Z) (a : A) :
  arrayGet l i = Some a -> 0 <= i < Z.of_nat (List.length l).
Proof.
  unfold arrayGet. destruct (Z.ltb_spec i 0) as [Hneg | Hpos]; [discriminate |].
  intros Hnth.
  assert (Hlt : (Z.to_nat i < List.length l)%nat)
    by (apply nth_error_Some; congruence).
  lia.
Qed.

Lemma arrayGet_negative {A : Type} (l : list A) (i : Z) :
  i < 0 -> arrayGet l i = None.
Proof.
  intros Hneg. unfold arrayGet.
  destruct (Z.ltb_spec i 0); [reflexivity | lia].
Qed.

Lemma selectChild_entry cur point child :
  selectChild cur point = Some child ->
  exists ty s,
    arrayGet (castChildrenToSourceMappingElement cur) (index point) = Some (ty, child, s)
    /\ kind point = typeCode ty.
Proof.
  unfold selectChild.
  destruct (arrayGet _ _) as [[[ty c] s] |]; [| discriminate].
  destruct (Z.eqb_spec (kind point) (typeCode ty)); [| discriminate].
  intros [= <-]. eauto.
Qed.

(** One step of the loop at a point that selects a child. *)
Lemma resolveLoop_select cur point rest child :
  kind point <> typeCode CharIndex ->
  selectChild cur point = Some child ->
  resolveLoop (Some cur) (point :: rest) = resolveLoop (Some child) rest.
Proof.
  intros Hkind Hsel.
  destruct (selectChild_entry _ _ _ Hsel) as (ty & s & Hget & Hty).
  pose proof (arrayGet_lt _ _ _ Hget) as Hrange.
  cbn [resolveLoop].
  destruct (Z.eqb_spec (kind point) (typeCode CharIndex)); [contradiction |].
  destruct (Z.geb_spec (index point)
              (Z.of_nat (List.length (castChildrenToSourceMappingElement cur)))); [lia |].
  rewrite Hget, Hty, Z.eqb_refl. reflexivity.
Qed.

(** The loop along a prefix that [follow] can walk. *)
Lemma resolveLoop_follow pre : forall cur node rest,
  follow cur pre = Some node ->
  resolveLoop cur (pre ++ rest) = resolveLoop node rest.
Proof.
  induction pre as [| point pre IH]; intros cur node rest Hfollow.
  - cbn in Hfollow. injection Hfollow as <-. reflexivity.
  - cbn [follow] in Hfollow.
    destruct (Z.eqb_spec (kind point) (typeCode CharIndex)) as [| Hkind];
      [discriminate |].
    destruct cur as [c |]; [| discriminate].
    destruct (selectChild c point) as [child |] eqn:Hsel; [| discriminate].
    cbn [app]. rewrite (resolveLoop_select _ _ _ _ Hkind Hsel).
    now apply IH.
Qed.

Lemma resolveLoop_out_of_range cur point rest :
  kind point <> typeCode CharIndex ->
  Z.of_nat (List.length (castChildrenToSourceMappingElement cur)) <= index point ->
  resolveLoop (Some cur) (point :: rest) = Return None.
Proof.
  intros Hkind Hrange. cbn [resolveLoop].
  destruct (Z.eqb_spec (kind point) (typeCode CharIndex)); [contradiction |].
  destruct (Z.geb_spec (index point)
              (Z.of_nat (List.length (castChildrenToSourceMappingElement cur))));
    [reflexivity | lia].
Qed.

Lemma resolveLoop_kind_mismatch cur point rest ty child s :
  kind point <> typeCode CharIndex ->
  arrayGet (castChildrenToSourceMappingElement cur) (index point) = Some (ty, child, s) ->
  kind point <> typeCode ty ->
  resolveLoop (Some cur) (point :: rest) = Return None.
Proof.
  intros Hkind Hget Hty. pose proof (arrayGet_lt _ _ _ Hget) as Hrange.
  cbn [resolveLoop].
  destruct (Z.eqb_spec (kind point) (typeCode CharIndex)); [contradiction |].
  destruct (Z.geb_spec (index point)
              (Z.of_nat (List.length (castChildrenToSourceMappingElement cur)))); [lia |].
  rewrite Hget.
  destruct (Z.eqb_spec (kind point) (typeCode ty)); [contradiction | reflexivity].
Qed.

(** Below zero the range test passes and the array read yields
    [undefined], whose component [0] is then read. *)
Lemma resolveLoop_negative_index cur point rest :
  kind point <> typeCode CharIndex ->
  index point < 0 ->
  resolveLoop (Some cur) (point :: rest) = Throw.
Proof.
  intros Hkind Hneg. cbn [resolveLoop].
  destruct (Z.eqb_spec (kind point) (typeCode CharIndex)); [contradiction |].
  destruct (Z.geb_spec (index point)
              (Z.of_nat (List.length (castChildrenToSourceMappingElement cur)))); [lia |].
  now rewrite arrayGet_negative.
Qed.

(** Without a current element the loop never yields [undefined]. *)
Lemma resolveLoop_undefined_cur points :
  resolveLoop None points <> Return None.
Proof.
  destruct points as [| point rest]; cbn [resolveLoop]; [discriminate |].
  destruct (kind point =? typeCode CharIndex); discriminate.
Qed.


(** C1. When the descent along the points before a [CharIndex] point
    reaches [node], [resolveSourceLeaf] returns [(node, point.index)]:
    the loop stops at the [CharIndex] point, whatever follows it, and the
    point selects no child of [node]. *)
Theorem resolveSourceLeaf_CharIndex
    (elem : Element) (root : ElementPoint) (pre : list ElementPoint)
    (point : ElementPoint) (rest : list ElementPoint) (node : option Element) :
  kind point = typeCode CharIndex ->
  follow (hd_error (getElementsByClassName elem "typst-page")) pre = Some node ->
  resolveSourceLeaf elem (root :: pre ++ point :: rest)
  = Return (Some (node, index point)).
Proof.
  intros Hkind Hfollow. unfold resolveSourceLeaf, slice1. cbn [tl].
  rewrite (resolveLoop_follow _ _ _ _ Hfollow).
  cbn [resolveLoop]. rewrite Hkind, Z.eqb_refl. reflexivity.
Qed.

Lemma resolveSourceLeaf_CharIndex_sample :
  resolveSourceLeaf Sample.doc
    (Sample.root :: [mkPoint 1 0 ""; mkPoint 0 0 ""] ++ mkPoint 5 7 "" :: [mkPoint 0 0 ""])
  = Return (Some (Some Sample.text, index (mkPoint 5 7 ""))).
Proof.
  apply resolveSourceLeaf_CharIndex; reflexivity.
Defined.

(** Strictness for indices that are array indices: past the end of the
    classified list, or at an entry of another kind, the result is
    [undefined]. *)
Lemma resolveSourceLeaf_strict
    (elem : Element) (root : ElementPoint) (pre : list ElementPoint)
    (point : ElementPoint) (rest : list ElementPoint) (node : Element) :
  follow (hd_error (getElementsByClassName elem "typst-page")) pre = Some (Some node) ->
  kind point <> typeCode CharIndex ->
  Z.of_nat (List.length (castChildrenToSourceMappingElement node)) <= index point
  \/ (exists ty child s,
        arrayGet (castChildrenToSourceMappingElement node) (index point)
        = Some (ty, child, s) /\ kind point <> typeCode ty) ->
  resolveSourceLeaf elem (root :: pre ++ point :: rest) = Return None.
Proof.
  intros Hfollow Hkind Hbad. unfold resolveSourceLeaf, slice1. cbn [tl].
  rewrite (resolveLoop_follow _ _ _ _ Hfollow).
  destruct Hbad as [Hrange | (ty & child & s & Hget & Hty)].
  - now apply resolveLoop_out_of_range.
  - now apply resolveLoop_kind_mismatch with ty child s.
Qed.

(** C2. At the index [-1], which is out of range of every classified
    list, [resolveSourceLeaf] throws instead of returning [undefined]. *)
Theorem resolveSourceLeaf_negative_index_throws :
  resolveSourceLeaf Sample.doc [Sample.root; mkPoint 1 (-1) ""] = Throw.
Proof. reflexivity. Qed.

(** Every negative index at a descent step throws. *)
Lemma resolveSourceLeaf_negative_index
    (elem : Element) (root : ElementPoint) (pre : list ElementPoint)
    (point : ElementPoint) (rest : list ElementPoint) (node : Element) :
  follow (hd_error (getElementsByClassName elem "typst-page")) pre = Some (Some node) ->
  kind point <> typeCode CharIndex ->
  index point < 0 ->
  resolveSourceLeaf elem (root :: pre ++ point :: rest) = Throw.
Proof.
  intros Hfollow Hkind Hneg. unfold resolveSourceLeaf, slice1. cbn [tl].
  rewrite (resolveLoop_follow _ _ _ _ Hfollow).
  now apply resolveLoop_negative_index.
Qed.

(** C4. On a tree without a page [resolveSourceLeaf] does not return
    [undefined]: a path whose first point after the root marker is not a
    [CharIndex] point makes it throw, and the path of the root marker
    alone makes it return a pair whose element is [undefined]. *)
Theorem resolveSourceLeaf_no_page_sample :
  getElementsByClassName Sample.text "typst-page" = []
  /\ resolveSourceLeaf Sample.text [Sample.root; mkPoint 1 0 ""] = Throw
  /\ resolveSourceLeaf Sample.text [Sample.root] = Return (Some (None, 0)).
Proof. repeat split. Qed.

(** No path makes a tree without a page resolve to [undefined]. *)
Lemma resolveSourceLeaf_no_page (elem : Element) (path : list ElementPoint) :
  getElementsByClassName elem "typst-page" = [] ->
  resolveSourceLeaf elem path <> Return None.
Proof.
  intros Hnone. unfold resolveSourceLeaf. rewrite Hnone. cbn [hd_error].
  apply resolveLoop_undefined_cur.
Qed.

(** ** Pass-through wrappers *)

Section PassThrough.
Variables (wcl : list string) (wat : list (string * string)).
Hypothesis wrapper_unclassified : kindOfClassList wcl = None.

Lemma castNest_single cl at_ c :
  kindOfClassList cl = None ->
  castToNestSourceMappingElement (Elem cl at_ [c]) = castToNestSourceMappingElement c.
Proof.
  intros Hcl. cbn [castToNestSourceMappingElement].
  unfold castToSourceMappingElement at 1. cbn [classList]. now rewrite Hcl.
Qed.

Lemma castNest_dead_end cl at_ ch :
  kindOfClassList cl = None ->
  List.length ch <> 1%nat ->
  castToNestSourceMappingElement (Elem cl at_ ch) = None.
Proof.
  intros Hcl Hlen. cbn [castToNestSourceMappingElement].
  unfold castToSourceMappingElement at 1. cbn [classList]. rewrite Hcl.
  destruct ch as [| c [| d ch]]; [reflexivity | | reflexivity].
  now contradiction Hlen.
Qed.

Lemma castNest_classified n ty :
  kindOfClassList (classList n) = Some ty ->
  castToNestSourceMappingElement n = Some (ty, n, "").
Proof.
  intros Hty. destruct n as [cl at_ ch]. cbn [castToNestSourceMappingElement].
  unfold castToSourceMappingElement. cbn [classList] in *. now rewrite Hty.
Qed.

Lemma castNest_wrapNest c c' :
  Wrap.wrapNest wcl wat c c' ->
  castToNestSourceMappingElement c' = castToNestSourceMappingElement c.
Proof.
  induction 1 as [c | cl at_ c c' Hcl _ IH].
  - now apply castNest_single.
  - now rewrite !castNest_single.
Qed.

Lemma castNest_nestReplace n n' c c' ty m s :
  Wrap.nestReplace n n' c c' ->
  classList n' = classList n ->
  castToNestSourceMappingElement c = Some (ty, m, s) ->
  m = n /\ castToNestSourceMappingElement c' = Some (ty, n', s).
Proof.
  intros Hrep Hcl. induction Hrep as [Htagged | cl at_ c c' Huntagged _ IH].
  - destruct (kindOfClassList (classList n)) as [ty0 |] eqn:Hty; [| contradiction].
    rewrite (castNest_classified _ _ Hty). intros [= <- <- <-].
    split; [reflexivity |]. apply castNest_classified. now rewrite Hcl.
  - rewrite !castNest_single by assumption. exact IH.
Qed.

Lemma filterMap_app {A B : Type} (f : A -> option B) (l r : list A) :
  filterMap f (l ++ r) = filterMap f l ++ filterMap f r.
Proof.
  induction l as [| a l IH]; [reflexivity |].
  cbn [app filterMap]. destruct (f a); cbn [app]; now rewrite IH.
Qed.

Lemma arrayGet_middle {A : Type} (l r : list A) (a : A) :
  arrayGet (l ++ a :: r) (Z.of_nat (List.length l)) = Some a.
Proof.
  unfold arrayGet. destruct (Z.ltb_spec (Z.of_nat (List.length l)) 0); [lia |].
  rewrite Nat2Z.id. rewrite nth_error_app2 by lia.
  now rewrite Nat.sub_diag.
Qed.

(** One step of the loop reads the element through its classified
    children only. *)
Lemma resolveLoop_same_children cur cur' point rest :
  kind point <> typeCode CharIndex ->
  castChildrenToSourceMappingElement cur' = castChildrenToSourceMappingElement cur ->
  resolveLoop (Some cur') (point :: rest) = resolveLoop (Some cur) (point :: rest).
Proof.
  intros Hkind Hsame. cbn [resolveLoop]. rewrite Hsame.
  now destruct (Z.eqb_spec (kind point) (typeCode CharIndex)).
Qed.

(** The classified children around one direct child. *)
Lemma castChildren_split cl at_ l c r :
  castChildrenToSourceMappingElement (Elem cl at_ (l ++ c :: r))
  = filterMap castToNestSourceMappingElement l
    ++ filterMap castToNestSourceMappingElement [c]
    ++ filterMap castToNestSourceMappingElement r.
Proof.
  unfold castChildrenToSourceMappingElement. cbn [children].
  rewrite filterMap_app. f_equal. change (c :: r) with ([c] ++ r).
  apply filterMap_app.
Qed.

Lemma resolveLoop_wrapChain cur points cur' :
  Wrap.wrapChain wcl wat cur points cur' ->
  resolveLoop (Some cur') points = resolveLoop (Some cur) points.
Proof.
  induction 1 as [cl at_ l c r c' point rest entry Hkind Hidx Hcast Hnest
                 | cl at_ l c r c' point rest ty n s n' Hkind Hidx Hcast Hchain IH Hrep].
  - apply resolveLoop_same_children; [assumption |]. rewrite !castChildren_split.
    cbn [filterMap]. now rewrite (castNest_wrapNest _ _ Hnest).
  - assert (Hcl : classList n' = classList n)
      by (destruct Hchain; reflexivity).
    destruct (castNest_nestReplace _ _ _ _ _ _ _ Hrep Hcl Hcast) as [_ Hcast'].
    cbn [resolveLoop].
    destruct (Z.eqb_spec (kind point) (typeCode CharIndex)); [contradiction |].
    rewrite !castChildren_split. cbn [filterMap]. rewrite Hcast, Hcast'.
    cbn [app]. rewrite !length_app. cbn [List.length].
    destruct (Z.geb_spec (index point)
                (Z.of_nat (List.length (filterMap castToNestSourceMappingElement l)
                           + S (List.length (filterMap castToNestSourceMappingElement r)))));
      [lia |].
    rewrite Hidx, !arrayGet_middle.
    destruct (negb (kind point =? typeCode ty)); [reflexivity | exact IH].
Qed.

Lemma descendants_Elem cl at_ ch :
  descendants (Elem cl at_ ch) = descendantsOfList ch.
Proof.
  cbn [descendants]. unfold descendantsOfList.
  induction ch as [| c ch IH]; [reflexivity |].
  cbn [flat_map]. now rewrite <- IH.
Qed.

Lemma descendantsOfList_split l c r :
  descendantsOfList (l ++ c :: r)
  = descendantsOfList l ++ (c :: descendants c) ++ descendantsOfList r.
Proof. unfold descendantsOfList. now rewrite flat_map_app. Qed.

Lemma hd_error_app_Some {A : Type} (l r : list A) (a : A) :
  hd_error l = Some a -> hd_error (l ++ r) = Some a.
Proof. destruct l; [discriminate | auto]. Qed.

Lemma firstClassIn_None table cl cls ty :
  firstClassIn table cl = None -> In (cls, ty) table -> contains cl cls = false.
Proof.
  induction table as [| [cls0 ty0] table IH]; [contradiction |].
  cbn [firstClassIn]. destruct (contains cl cls0) eqn:Hc; [discriminate |].
  intros Hnone [[= <- <-] | Hin]; auto.
Qed.

Lemma unclassified_not_page cl :
  kindOfClassList cl = None -> contains cl "typst-page" = false.
Proof.
  destruct cl as [| c cl]; [reflexivity |]. unfold kindOfClassList.
  intros Hnone. apply (firstClassIn_None _ _ _ Page Hnone).
  cbn. tauto.
Qed.

Lemma atFirstPage_isPage p p' ch ch' :
  Wrap.atFirstPage p p' ch ch' -> Wrap.hasPageClass p = true.
Proof. induction 1; assumption. Qed.

(** The first page of the forest before the replacement is [p]. *)
Lemma atFirstPage_source p p' ch ch' :
  Wrap.atFirstPage p p' ch ch' ->
  hd_error (filter Wrap.hasPageClass (descendantsOfList ch)) = Some p.
Proof.
  induction 1 as [l r Hl Hp | l cl at_ ch ch' r Hl Hcl _ IH];
    rewrite descendantsOfList_split, !filter_app, Hl; cbn [app filter].
  - now rewrite Hp.
  - unfold Wrap.hasPageClass at 1. cbn [classList]. rewrite Hcl.
    rewrite descendants_Elem. now apply hd_error_app_Some.
Qed.

(** After the replacement the first page of the forest is the first page
    at or below [p']. *)
Lemma atFirstPage_target p p' ch ch' q :
  Wrap.atFirstPage p p' ch ch' ->
  hd_error (filter Wrap.hasPageClass (p' :: descendants p')) = Some q ->
  hd_error (filter Wrap.hasPageClass (descendantsOfList ch')) = Some q.
Proof.
  intros Hat Hq.
  induction Hat as [l r Hl Hp | l cl at_ ch ch' r Hl Hcl _ IH];
    rewrite descendantsOfList_split, !filter_app, Hl; cbn [app].
  - now apply hd_error_app_Some.
  - cbn [filter]. unfold Wrap.hasPageClass at 1. cbn [classList]. rewrite Hcl.
    rewrite descendants_Elem. now apply hd_error_app_Some.
Qed.

Lemma getElementsByClassName_page cl at_ ch :
  getElementsByClassName (Elem cl at_ ch) "typst-page"
  = filter Wrap.hasPageClass (descendantsOfList ch).
Proof. unfold getElementsByClassName. now rewrite descendants_Elem. Qed.

Lemma resolveSourceLeaf_wrapDescent T path T' :
  Wrap.wrapDescent wcl wat T (slice1 path) T' ->
  resolveSourceLeaf T' path = resolveSourceLeaf T path.
Proof.
  intros Hwrap. unfold resolveSourceLeaf.
  destruct Hwrap as [cl at_ ch ch' p points Hat | cl at_ ch ch' p p' points Hat Hchain];
    rewrite !getElementsByClassName_page, (atFirstPage_source _ _ _ _ Hat).
  - rewrite (atFirstPage_target _ _ _ _ p Hat); [reflexivity |].
    cbn [filter]. unfold Wrap.hasPageClass at 1, Wrap.wrapper. cbn [classList].
    rewrite (unclassified_not_page _ wrapper_unclassified).
    rewrite descendants_Elem. cbn [descendantsOfList flat_map filter].
    pose proof (atFirstPage_isPage _ _ _ _ Hat) as Hp.
    rewrite app_nil_r. cbn [filter]. now rewrite Hp.
  - assert (Hcl : classList p' = classList p) by (destruct Hchain; reflexivity).
    pose proof (atFirstPage_isPage _ _ _ _ Hat) as Hp.
    rewrite (atFirstPage_target _ _ _ _ p' Hat).
    + cbn [hd_error]. now apply resolveLoop_wrapChain.
    + cbn [filter]. unfold Wrap.hasPageClass at 1. rewrite Hcl.
      fold (Wrap.hasPageClass p). now rewrite Hp.
Qed.

End PassThrough.

(** C3. A wrapper without a kind class and with one child, put anywhere
    on the descent chain of a path, leaves the result of
    [resolveSourceLeaf] as it is; the nested classification goes through
    an unclassified node with one child to that child, and an
    unclassified child with no or several children contributes no entry to
    the classified list. *)
Theorem resolveSourceLeaf_pass_through (wcl : list string) (wat : list (string * string)) :
  kindOfClassList wcl = None ->
  (forall T path T',
      Wrap.wrapDescent wcl wat T (slice1 path) T' ->
      resolveSourceLeaf T' path = resolveSourceLeaf T path)
  /\ (forall cl at_ c,
        kindOfClassList cl = None ->
        castToNestSourceMappingElement (Elem cl at_ [c])
        = castToNestSourceMappingElement c)
  /\ (forall cl at_ ch pcl pat l r,
        kindOfClassList cl = None ->
        List.length ch <> 1%nat ->
        castChildrenToSourceMappingElement (Elem pcl pat (l ++ Elem cl at_ ch :: r))
        = filterMap castToNestSourceMappingElement l
          ++ filterMap castToNestSourceMappingElement r).
Proof.
  intros Hwcl. split; [| split].
  - intros T path T'. now apply resolveSourceLeaf_wrapDescent.
  - intros cl at_ c. apply castNest_single.
  - intros cl at_ ch pcl pat l r Hcl Hlen.
    rewrite castChildren_split. cbn [filterMap].
    now rewrite (castNest_dead_end _ at_ _ Hcl Hlen).
Qed.

(** The sample document with a wrapper around the text of its group. *)
Lemma resolveSourceLeaf_pass_through_sample :
  let path := [Sample.root; mkPoint 1 0 ""; mkPoint 0 0 ""] in
  let group' := Elem ["typst-group"] [] [Elem ["wrapper"] [] [Sample.text]] in
  let page' := Elem ["typst-page"] [] [Elem [] [] [group']; Sample.text] in
  resolveSourceLeaf (Elem [] [] [page']) path = resolveSourceLeaf Sample.doc path
  /\ resolveSourceLeaf Sample.doc path = Return (Some (Some Sample.text, 0)).
Proof.
  intros path group' page'. split; [| reflexivity].
  apply (proj1 (resolveSourceLeaf_pass_through ["wrapper"] [] eq_refl)).
  apply (Wrap.wrapDescent_chain _ _ [] [] [Sample.page] [page'] Sample.page page').
  - apply (Wrap.atFirstPage_here _ _ [] []); reflexivity.
  - apply (Wrap.wrapChain_below _ _ ["typst-page"] [] []
             (Elem [] [] [Sample.group]) [Sample.text] (Elem [] [] [group'])
             (mkPoint 1 0 "") [mkPoint 0 0 ""] Group Sample.group "" group');
      [discriminate | reflexivity | reflexivity | |].
    + apply (Wrap.wrapChain_here _ _ ["typst-group"] [] [] Sample.text []
               (Elem ["wrapper"] [] [Sample.text]) (mkPoint 0 0 "") []
               (Text, Sample.text, ""));
        [discriminate | reflexivity | reflexivity | apply Wrap.wrapNest_here].
    + apply Wrap.nestReplace_down; [reflexivity |].
      apply Wrap.nestReplace_here. discriminate.
Defined.

(** ** The click locator *)

Section Ascent.
Variables (doc : Element) (docRoot : NodeRef).

(** The walk stops at an element classified as a page. *)
Lemma ascend_page elem e may :
  nodeAt doc elem = Some e ->
  isPage (castRef doc elem) = true ->
  ascend doc docRoot elem may = Some (castRef doc elem).
Proof.
  intros He Hpage. destruct elem; cbn [ascend]; cbn [ascend] in *;
    rewrite He, Hpage; reflexivity.
Qed.

(** At the root, when it is no page, the walk returns. *)
Lemma ascend_root elem e may :
  nodeAt doc elem = Some e ->
  isPage (castRef doc elem) = false ->
  same elem docRoot = true ->
  ascend doc docRoot elem may = None.
Proof.
  intros He Hpage Hroot. destruct elem; cbn [ascend];
    rewrite He, Hpage, Hroot; reflexivity.
Qed.

(** Elsewhere the walk goes on at the parent. *)
Lemma ascend_parent i up e may :
  nodeAt doc (i :: up) = Some e ->
  isPage (castRef doc (i :: up)) = false ->
  same (i :: up) docRoot = false ->
  ascend doc docRoot (i :: up) may = ascend doc docRoot up (castRef doc (i :: up)).
Proof.
  intros He Hpage Hroot. cbn [ascend]. rewrite He, Hpage, Hroot. reflexivity.
Qed.

(** At the document element, when it is neither a page nor the root, the
    loop ends with the classification of the document element. *)
Lemma ascend_top may :
  isPage (castRef doc []) = false ->
  same [] docRoot = false ->
  ascend doc docRoot [] may = Some (castRef doc []).
Proof.
  intros Hpage Hroot. cbn [ascend nodeAt]. rewrite Hpage, Hroot. reflexivity.
Qed.

Lemma ascend_passes pre anc may :
  pre <> [] ->
  passes doc docRoot pre anc ->
  ascend doc docRoot (pre ++ anc) may
  = ascend doc docRoot anc (castRef doc (last pre O :: anc)).
Proof.
  induction pre as [| i pre IH] in may |- *; [contradiction |].
  intros _ (He & Hpage & Hroot & Hrest). cbn [app].
  destruct (nodeAt doc (i :: pre ++ anc)) as [e |] eqn:Hnode; [| contradiction].
  rewrite (ascend_parent _ _ _ _ Hnode Hpage Hroot).
  destruct pre as [| j pre]; [reflexivity |].
  rewrite IH by (assumption || discriminate). reflexivity.
Qed.

End Ascent.

(** The walk stops at the first ancestor that is a page. *)
Lemma ascend_first_page doc docRoot pre anc e :
  passes doc docRoot pre anc ->
  nodeAt doc anc = Some e ->
  isPage (castRef doc anc) = true ->
  ascend doc docRoot (pre ++ anc) None = Some (castRef doc anc).
Proof.
  intros Hpasses He Hpage. destruct pre as [| i pre].
  - now apply ascend_page with e.
  - rewrite ascend_passes by (assumption || discriminate).
    now apply ascend_page with e.
Qed.

(** The walk fails at the root when no page was met up to it. *)
Lemma ascend_reaches_root doc docRoot pre e :
  passes doc docRoot pre docRoot ->
  nodeAt doc docRoot = Some e ->
  isPage (castRef doc docRoot) = false ->
  ascend doc docRoot (pre ++ docRoot) None = None.
Proof.
  intros Hpasses He Hpage.
  assert (Hsame : same docRoot docRoot = true).
  { unfold same. now destruct (list_eq_dec Nat.eq_dec docRoot docRoot). }
  destruct pre as [| i pre].
  - now apply ascend_root with e.
  - rewrite ascend_passes by (assumption || discriminate).
    now apply ascend_root with e.
Qed.

(** When the walk runs out of ancestors the loop ends with the
    classification of the last element it visited, the document element. *)
Lemma ascend_runs_out doc docRoot pre :
  passes doc docRoot pre [] ->
  isPage (castRef doc []) = false ->
  same [] docRoot = false ->
  ascend doc docRoot (pre ++ []) None = Some (castRef doc []).
Proof.
  intros Hpasses Hpage Hroot. destruct pre as [| i pre].
  - now apply ascend_top.
  - rewrite ascend_passes by (assumption || discriminate).
    now apply ascend_top.
Qed.

(** C7. A target outside the root under a document element that is a
    group: the walk runs out of ancestors with the group as the last
    classification, and [resolveFrameLoc] goes on with the group in the
    place of a page and returns a location. *)
Theorem resolveFrameLoc_runs_out_sample :
  ascend Sample.strayDoc Sample.strayRoot Sample.strayTarget None
  = Some (Some (Group, [], ""))
  /\ resolveFrameLoc (SampleHost.host Sample.rect) Sample.strayDoc Sample.strayRoot
       Sample.click Sample.strayTarget
     = Some {| page_no := 1; x := 150; y := 200 |}.
Proof. split; reflexivity. Qed.

(** What a successful resolution returns. *)
Lemma resolveFrameLoc_Some host doc docRoot event elem loc :
  resolveFrameLoc host doc docRoot event elem = Some loc ->
  exists ty pageElem s pn ws hs,
    ascend doc docRoot elem None = Some (Some (ty, pageElem, s))
    /\ attrOf doc pageElem "data-page-number" = Some pn
    /\ attrOf doc pageElem "data-page-width" = Some ws
    /\ attrOf doc pageElem "data-page-height" = Some hs
    /\ pn <> "" /\ ws <> "" /\ hs <> ""
    /\ let pageRect :=
         getBoundingClientRect host (getNthBackgroundRect doc pageElem (Some pn)) in
       loc = {| page_no := (parseInt host pn + 1)%float;
                x := ((clientX event - left pageRect) / width pageRect
                      * parseFloat host ws)%float;
                y := ((clientY event - top pageRect) / height pageRect
                      * parseFloat host hs)%float |}.
Proof.
  unfold resolveFrameLoc.
  destruct (ascend doc docRoot elem None) as [[[[ty pageElem] s] |] |]; try discriminate.
  destruct (attrOf doc pageElem "data-page-number") as [pn |] eqn:Hpn; [| discriminate].
  destruct (attrOf doc pageElem "data-page-width") as [ws |] eqn:Hws;
    [| cbn; rewrite orb_true_r; discriminate].
  destruct (attrOf doc pageElem "data-page-height") as [hs |] eqn:Hhs;
    [| cbn; rewrite !orb_true_r; discriminate].
  cbn [falsy].
  destruct (String.eqb_spec pn ""); [discriminate |].
  destruct (String.eqb_spec ws ""); [discriminate |].
  destruct (String.eqb_spec hs ""); [discriminate |].
  cbn [orb]. intros [= <-]. exists ty, pageElem, s, pn, ws, hs.
  repeat split; solve [assumption | reflexivity].
Qed.

(** C5. A successful click resolution returns the page index plus one and
    the click's fractions of the background rectangle scaled by the
    declared width and height; for the rectangle [(100, 50, 200, 100)],
    the click [(150, 75)] and the declared size [600] by [800] that is
    [x = 150] and [y = 200]. *)
Theorem resolveFrameLoc_location host doc docRoot event elem loc :
  resolveFrameLoc host doc docRoot event elem = Some loc ->
  exists pageElem pn ws hs,
    attrOf doc pageElem "data-page-number" = Some pn
    /\ attrOf doc pageElem "data-page-width" = Some ws
    /\ attrOf doc pageElem "data-page-height" = Some hs
    /\ let pageRect :=
         getBoundingClientRect host (getNthBackgroundRect doc pageElem (Some pn)) in
       let p := parseInt host pn in
       let W := parseFloat host ws in
       let H := parseFloat host hs in
       loc = {| page_no := (p + 1)%float;
                x := ((clientX event - left pageRect) / width pageRect * W)%float;
                y := ((clientY event - top pageRect) / height pageRect * H)%float |}
       /\ (pageRect = mkRect 100 50 200 100 ->
           event = mkEvent 150 75 ->
           W = 600%float -> H = 800%float ->
           loc = {| page_no := (p + 1)%float; x := 150; y := 200 |}).
Proof.
  intros Hloc.
  destruct (resolveFrameLoc_Some _ _ _ _ _ _ Hloc)
    as (ty & pageElem & s & pn & ws & hs & _ & Hpn & Hws & Hhs & _ & _ & _ & Heq).
  exists pageElem, pn, ws, hs. repeat split; try assumption.
  cbv zeta in Heq. intros Hrect Hevent HW HH.
  rewrite Heq, Hrect, Hevent, HW, HH. reflexivity.
Qed.

Lemma resolveFrameLoc_location_sample :
  let host := SampleHost.host Sample.rect in
  let doc := Sample.clickDoc "600" "800" in
  let loc := {| page_no := 1; x := 150; y := 200 |} in
  resolveFrameLoc host doc Sample.clickRoot Sample.click Sample.clickTarget = Some loc
  /\ exists pageElem pn ws hs,
      attrOf doc pageElem "data-page-number" = Some pn
      /\ attrOf doc pageElem "data-page-width" = Some ws
      /\ attrOf doc pageElem "data-page-height" = Some hs
      /\ let pageRect :=
           getBoundingClientRect host (getNthBackgroundRect doc pageElem (Some pn)) in
         let p := parseInt host pn in
         let W := parseFloat host ws in
         let H := parseFloat host hs in
         loc = {| page_no := (p + 1)%float;
                  x := ((clientX Sample.click - left pageRect) / width pageRect * W)%float;
                  y := ((clientY Sample.click - top pageRect) / height pageRect * H)%float |}
         /\ (pageRect = mkRect 100 50 200 100 ->
             Sample.click = mkEvent 150 75 ->
             W = 600%float -> H = 800%float ->
             loc = {| page_no := (p + 1)%float; x := 150; y := 200 |}).
Proof.
  intros host doc loc. split; [reflexivity |].
  apply (resolveFrameLoc_location host doc Sample.clickRoot Sample.click
           Sample.clickTarget).
  reflexivity.
Defined.

(** The claim that an attribute that does not parse makes the resolution
    fail does not hold: with the width ["abc"], which parses to NaN, a
    location is returned, and its [x] is NaN. *)
Lemma resolveFrameLoc_unparseable_width :
  let host := SampleHost.host Sample.rect in
  let doc := Sample.clickDoc "abc" "800" in
  ascend doc Sample.clickRoot Sample.clickTarget None
  = Some (Some (Page, [1%nat; 0%nat], ""))
  /\ attrOf doc [1%nat; 0%nat] "data-page-width" = Some "abc"
  /\ PrimFloat.is_nan (parseFloat host "abc") = true
  /\ resolveFrameLoc host doc Sample.clickRoot Sample.click Sample.clickTarget
     = Some {| page_no := 1; x := nan; y := 200 |}.
Proof. repeat split. Qed.

(** C6, amended. A click on a page node fails exactly when the page
    number, the declared width or the declared height is missing or
    empty; whether the width and the height parse as numbers plays no
    part. *)
Theorem resolveFrameLoc_missing_attribute host doc docRoot event elem ty pageElem s :
  ascend doc docRoot elem None = Some (Some (ty, pageElem, s)) ->
  resolveFrameLoc host doc docRoot event elem = None
  <-> (falsy (attrOf doc pageElem "data-page-number") = true
       \/ falsy (attrOf doc pageElem "data-page-width") = true
       \/ falsy (attrOf doc pageElem "data-page-height") = true).
Proof.
  intros Hascend. unfold resolveFrameLoc. rewrite Hascend.
  destruct (attrOf doc pageElem "data-page-number") as [pn |];
    [| cbn; intuition auto].
  destruct (attrOf doc pageElem "data-page-width") as [ws |];
    [| cbn; rewrite orb_true_r; intuition auto].
  destruct (attrOf doc pageElem "data-page-height") as [hs |];
    [| cbn; rewrite !orb_true_r; intuition auto].
  destruct (falsy (Some pn)), (falsy (Some ws)), (falsy (Some hs)); cbn [orb];
    intuition (auto; discriminate).
Qed.

Lemma resolveFrameLoc_missing_attribute_sample :
  resolveFrameLoc (SampleHost.host Sample.rect) (Sample.clickDoc "" "800")
    Sample.clickRoot Sample.click Sample.clickTarget = None.
Proof.
  apply (resolveFrameLoc_missing_attribute _ (Sample.clickDoc "" "800") _ _ _
           Page [1%nat; 0%nat] ""); [reflexivity |].
  right; left. reflexivity.
Defined.

(** ** Handler registration *)

Section Registration.
Import Handlers.

Lemma roots_setRoot docRoot st s r :
  roots (setRoot docRoot st s) r = if Nat.eqb r docRoot then st else roots s r.
Proof. reflexivity. Qed.

Lemma removeEventListener_only h : removeEventListener h [h] = [].
Proof. unfold removeEventListener. cbn [filter]. now rewrite Nat.eqb_refl. Qed.

Lemma nextHandler_remove docRoot s :
  nextHandler (removeSourceMappingHandler docRoot s) = nextHandler s.
Proof.
  unfold removeSourceMappingHandler.
  now destruct (sourceMappingHandler (roots s docRoot)).
Qed.

(** Removal leaves a consistent root without property and listeners. *)
Lemma remove_at docRoot s :
  consistent (roots s docRoot) ->
  roots (removeSourceMappingHandler docRoot s) docRoot = freshRoot.
Proof.
  unfold consistent, removeSourceMappingHandler. intros Hc.
  destruct (roots s docRoot) as [[h |] listeners] eqn:Hroot;
    cbn [sourceMappingHandler clickListeners] in Hc |- *; subst listeners.
  - rewrite roots_setRoot, Nat.eqb_refl, removeEventListener_only. reflexivity.
  - exact Hroot.
Qed.

Lemma remove_elsewhere docRoot s r :
  r <> docRoot ->
  roots (removeSourceMappingHandler docRoot s) r = roots s r.
Proof.
  intros Hr. unfold removeSourceMappingHandler.
  destruct (sourceMappingHandler (roots s docRoot)); [| reflexivity].
  rewrite roots_setRoot. now destruct (Nat.eqb_spec r docRoot).
Qed.

(** Installation leaves a consistent root with the new handler alone. *)
Lemma install_at docRoot s :
  consistent (roots s docRoot) ->
  roots (installEditorJumpToHandler docRoot s) docRoot
  = {| sourceMappingHandler := Some (nextHandler s);
       clickListeners := [nextHandler s] |}.
Proof.
  intros Hc. unfold installEditorJumpToHandler.
  rewrite roots_setRoot, Nat.eqb_refl, (remove_at _ _ Hc), nextHandler_remove.
  reflexivity.
Qed.

Lemma install_elsewhere docRoot s r :
  r <> docRoot ->
  roots (installEditorJumpToHandler docRoot s) r = roots s r.
Proof.
  intros Hr. unfold installEditorJumpToHandler. rewrite roots_setRoot.
  destruct (Nat.eqb_spec r docRoot); [contradiction |].
  now apply remove_elsewhere.
Qed.

Lemma nextHandler_install docRoot s :
  nextHandler (installEditorJumpToHandler docRoot s) = S (nextHandler s).
Proof.
  unfold installEditorJumpToHandler. cbn [setRoot nextHandler].
  now rewrite nextHandler_remove.
Qed.

Lemma step_consistent s op :
  (forall r, consistent (roots s r)) ->
  forall r, consistent (roots (step s op) r).
Proof.
  intros Hall r. destruct op as [docRoot | docRoot]; cbn [step];
    destruct (Nat.eq_dec r docRoot) as [-> | Hr].
  - now rewrite install_at.
  - now rewrite install_elsewhere.
  - now rewrite remove_at.
  - now rewrite remove_elsewhere.
Qed.

Lemma run_consistent ops : forall s,
  (forall r, consistent (roots s r)) ->
  forall r, consistent (roots (run ops s) r).
Proof.
  unfold run. induction ops as [| op ops IH]; intros s Hall; [exact Hall |].
  cbn [fold_left]. apply IH. now apply step_consistent.
Qed.

Lemma reachable_consistent ops r : consistent (roots (run ops emptyStore) r).
Proof. apply run_consistent. intros r'. reflexivity. Qed.

End Registration.

(** C9. After any installations and removals on any roots, installing
    on a root leaves that root with exactly one click listener, the
    handler just created, so a click runs one resolution; installing once
    more replaces that handler by the next one, again alone; and removing
    leaves the root without listener and without the stored handler. *)
Theorem installEditorJumpToHandler_idempotent (ops : list Handlers.Op) (docRoot : nat) :
  let s := Handlers.run ops Handlers.emptyStore in
  let s1 := Handlers.installEditorJumpToHandler docRoot s in
  let s2 := Handlers.installEditorJumpToHandler docRoot s1 in
  Handlers.clickListeners (Handlers.roots s1 docRoot) = [Handlers.nextHandler s]
  /\ Handlers.resolutionAttempts docRoot s1 = 1%nat
  /\ Handlers.clickListeners (Handlers.roots s2 docRoot) = [S (Handlers.nextHandler s)]
  /\ Handlers.resolutionAttempts docRoot s2 = 1%nat
  /\ Handlers.roots (Handlers.removeSourceMappingHandler docRoot s) docRoot
     = Handlers.freshRoot
  /\ Handlers.roots (Handlers.removeSourceMappingHandler docRoot s2) docRoot
     = Handlers.freshRoot.
Proof.
  intros s s1 s2.
  pose proof (reachable_consistent ops docRoot) as Hs. fold s in Hs.
  pose proof (reachable_consistent (ops ++ [Handlers.Install docRoot]) docRoot) as Hs1.
  pose proof (reachable_consistent
                (ops ++ [Handlers.Install docRoot; Handlers.Install docRoot]) docRoot) as Hs2.
  unfold Handlers.run in Hs1, Hs2. rewrite fold_left_app in Hs1, Hs2.
  cbn [fold_left Handlers.step] in Hs1, Hs2.
  fold (Handlers.run ops Handlers.emptyStore) in Hs1, Hs2. fold s in Hs1, Hs2.
  fold s1 in Hs1, Hs2. fold s2 in Hs2.
  assert (L1 : Handlers.clickListeners (Handlers.roots s1 docRoot)
               = [Handlers.nextHandler s])
    by (unfold s1; now rewrite (install_at _ _ Hs)).
  assert (L2 : Handlers.clickListeners (Handlers.roots s2 docRoot)
               = [S (Handlers.nextHandler s)]).
  { unfold s2. rewrite (install_at _ _ Hs1). unfold s1.
    now rewrite nextHandler_install. }
  unfold Handlers.resolutionAttempts. rewrite L1, L2.
  repeat split; now apply remove_at.
Qed.

(** ** The scroll heuristic *)

(** C10. In slide mode [scrollTo] calls [setPartialPageNumber] with the
    page number and nothing else: its trace holds no scroll of the
    viewport and no ripple, and does not depend on the window, the page
    rectangle or the point. *)
Theorem scrollTo_slide (win : Window) (pageRect : DOMRect)
    (pageNo innerLeft innerTop : float) :
  let calls := scrollTo Slide win pageRect pageNo innerLeft innerTop in
  calls = [SetPartialPageNumber pageNo]
  /\ (forall behavior l t, ~ In (WindowScrollTo behavior l t) calls)
  /\ (forall l t className animation, ~ In (TriggerRipple l t className animation) calls).
Proof.
  intros calls. unfold calls, scrollTo. cbn [isSlide].
  split; [reflexivity |].
  split; intros; intros [Habs | []]; discriminate Habs.
Qed.

(** C8. Outside slide mode [scrollTo] scrolls once, smoothly, to a target
    that is a function of its arguments and the window.  The top is the
    anchor-adjusted offset, 38.2 hundredths of the viewport height above
    the point.  The left is the anchor-adjusted offset, 7 hundredths of the
    viewport width left of the point, when [widthOccupied >= 90] or
    [widthOccupied < 50], whatever the threshold; otherwise it is
    [pageAdjust], the right-aligned adjustment and the threshold itself,
    when the anchor-adjusted offset is above it, and [pageAdjustLeft], the
    left-aligned adjustment, when it is not. *)
#[warnings="-inexact-float"]
Theorem scrollTo_target (previewMode : PreviewMode) (win : Window) (pageRect : DOMRect)
    (pageNo innerLeft innerTop : float) :
  previewMode <> Slide ->
  let left_ := (innerLeft - left (basePos win))%float in
  let top_ := (innerTop - top (basePos win))%float in
  let pw := (innerWidth win * 0.01)%float in
  let ph := (innerHeight win * 0.01)%float in
  let xOffset := (left_ - 7 * pw)%float in
  let yOffset := (top_ - 38.2 * ph)%float in
  let widthOccupied := (100 * 100 * pw / width pageRect)%float in
  let pageAdjustLeft := (left pageRect - left (basePos win) - 5 * pw)%float in
  let pageAdjust :=
    (left pageRect - left (basePos win) + width pageRect - 95 * pw)%float in
  exists target,
    scrollTo previewMode win pageRect pageNo innerLeft innerTop
    = [ WindowScrollTo "smooth" target yOffset;
        TriggerRipple left_ top_ "typst-jump-ripple" "typst-jump-ripple-effect .4s linear" ]
    /\ ((90 <=? widthOccupied)%float = true \/ (widthOccupied <? 50)%float = true ->
        target = xOffset)
    /\ ((90 <=? widthOccupied)%float = false ->
        (widthOccupied <? 50)%float = false ->
        (pageAdjust <? xOffset)%float = true ->
        target = pageAdjust)
    /\ ((90 <=? widthOccupied)%float = false ->
        (widthOccupied <? 50)%float = false ->
        (pageAdjust <? xOffset)%float = false ->
        target = pageAdjustLeft).
Proof.
  intros Hmode left_ top_ pw ph xOffset yOffset widthOccupied pageAdjustLeft pageAdjust.
  destruct previewMode; [| contradiction]. cbn [scrollTo isSlide].
  unfold Scroll.scrollTarget.
  change (Scroll.widthOccupied win pageRect) with widthOccupied.
  change (Scroll.xOffset win innerLeft) with xOffset.
  change (Scroll.yOffset win innerTop) with yOffset.
  change (Scroll.pageAdjust win pageRect) with pageAdjust.
  change (Scroll.pageAdjustLeft win pageRect) with pageAdjustLeft.
  change (Scroll.left_ win innerLeft) with left_.
  change (Scroll.top_ win innerTop) with top_.
  destruct (90 <=? widthOccupied)%float eqn:Hwide;
    [| destruct (widthOccupied <? 50)%float eqn:Hnarrow;
       [| destruct (pageAdjust <? xOffset)%float eqn:Hright ]];
    cbn [orb]; eexists; (split; [reflexivity |]);
    repeat split; intros; try reflexivity; try discriminate;
    intuition discriminate.
Qed.

(** A page as wide as the viewport: [widthOccupied] is [100], and the
    scroll goes to the anchor-adjusted offset. *)
#[warnings="-inexact-float"]
Lemma scrollTo_target_wide_sample :
  exists target,
    scrollTo Doc Sample.window Sample.widePage 3 300 500
    = [ WindowScrollTo "smooth" target 194.39999999999998;
        TriggerRipple 300 500 "typst-jump-ripple" "typst-jump-ripple-effect .4s linear" ]
    /\ target = 230%float.
Proof.
  destruct (scrollTo_target Doc Sample.window Sample.widePage 3 300 500)
    as (target & Hcall & Hsingle & _); [discriminate |].
  exists target. split; [exact Hcall |].
  apply Hsingle. left. reflexivity.
Defined.

(** A page of 10/7 of the viewport width, [widthOccupied = 70]: a point
    whose anchor-adjusted offset is below the threshold scrolls to the
    left-aligned adjustment, one above it to the right-aligned one. *)
#[warnings="-inexact-float"]
Example scrollTo_two_columns :
  Scroll.widthOccupied Sample.window Sample.columnPage = 70%float
  /\ Scroll.pageAdjust Sample.window Sample.columnPage = 498.57142857142867%float
  /\ scrollTo Doc Sample.window Sample.columnPage 3 300 500
     = [ WindowScrollTo "smooth" (-30) 194.39999999999998;
         TriggerRipple 300 500 "typst-jump-ripple" "typst-jump-ripple-effect .4s linear" ]
  /\ scrollTo Doc Sample.window Sample.columnPage 3 900 500
     = [ WindowScrollTo "smooth" 498.57142857142867 194.39999999999998;
         TriggerRipple 900 500 "typst-jump-ripple" "typst-jump-ripple-effect .4s linear" ].
Proof. repeat split. Qed.

(** * Further properties of the code *)

(** ** Classification *)

(** Induction on an element with the property at hand for its children. *)
Lemma Element_children_ind (P : Element -> Prop) :
  (forall cl at_ ch, Forall P ch -> P (Elem cl at_ ch)) ->
  forall e, P e.
Proof.
  intros Hstep. fix IH 1. intros [cl at_ ch]. apply Hstep.
  revert ch. fix IHch 1. intros [| c ch]; constructor; [apply IH | apply IHch].
Qed.

Lemma contains_In cl cls : contains cl cls = true <-> In cls cl.
Proof.
  unfold contains. rewrite existsb_exists. split.
  - intros (c & Hin & Heq). apply String.eqb_eq in Heq. now subst.
  - intros Hin. exists cls. split; [assumption | apply String.eqb_refl].
Qed.

Lemma contains_same_set cl cl' cls :
  (forall c, In c cl <-> In c cl') -> contains cl' cls = contains cl cls.
Proof.
  intros Hset. apply eq_true_iff_eq. rewrite !contains_In. symmetry. apply Hset.
Qed.

Lemma firstClassIn_same_set table cl cl' :
  (forall c, In c cl <-> In c cl') -> firstClassIn table cl' = firstClassIn table cl.
Proof.
  intros Hset. induction table as [| [cls ty] table IH]; [reflexivity |].
  cbn [firstClassIn]. now rewrite (contains_same_set _ _ cls Hset), IH.
Qed.

(** X1. The kind of an element depends on the set of its classes only:
    neither their order nor repetitions in the class list change it. *)
Theorem castToSourceMappingElement_class_set (e e' : Element) :
  (forall c, In c (classList e) <-> In c (classList e')) ->
  option_map (fun r => fst (fst r)) (castToSourceMappingElement e')
  = option_map (fun r => fst (fst r)) (castToSourceMappingElement e).
Proof.
  intros Hset. unfold castToSourceMappingElement.
  assert (Hkind : kindOfClassList (classList e') = kindOfClassList (classList e)).
  { unfold kindOfClassList.
    destruct (classList e) as [| c cl] eqn:Hcl, (classList e') as [| c' cl'] eqn:Hcl';
      try reflexivity.
    - exfalso. apply (Hset c'). now left.
    - exfalso. apply (Hset c). now left.
    - now apply firstClassIn_same_set. }
  rewrite Hkind. now destruct (kindOfClassList (classList e)).
Qed.

Lemma castToSourceMappingElement_class_set_sample :
  option_map (fun r => fst (fst r))
    (castToSourceMappingElement (Elem ["typst-page"; "x"; "typst-group"; "x"] [] []))
  = option_map (fun r => fst (fst r))
      (castToSourceMappingElement (Elem ["typst-group"; "typst-page"; "x"] [] [])).
Proof.
  apply castToSourceMappingElement_class_set. cbn. intros c. tauto.
Defined.

Lemma firstClassIn_Some table cl ty :
  firstClassIn table cl = Some ty
  <-> exists pre cls post,
        table = pre ++ (cls, ty) :: post
        /\ contains cl cls = true
        /\ Forall (fun entry => contains cl (fst entry) = false) pre.
Proof.
  induction table as [| [cls0 ty0] table IH]; cbn [firstClassIn].
  - split; [discriminate |]. intros (pre & cls & post & Htable & _).
    now destruct pre.
  - destruct (contains cl cls0) eqn:Hc.
    + split.
      * intros [= <-]. exists [], cls0, table. repeat split; [assumption | constructor].
      * intros (pre & cls & post & Htable & Hcls & Hpre).
        destruct pre as [| [c t] pre]; cbn [app] in Htable.
        -- now injection Htable as _ <- _.
        -- injection Htable as <- <- _. inversion Hpre as [| ? ? Hfalse _]; subst.
           cbn [fst] in Hfalse. congruence.
    + rewrite IH. split.
      * intros (pre & cls & post & -> & Hcls & Hpre).
        exists ((cls0, ty0) :: pre), cls, post. repeat split; [assumption |].
        now constructor.
      * intros (pre & cls & post & Htable & Hcls & Hpre).
        destruct pre as [| [c t] pre]; cbn [app] in Htable.
        -- injection Htable as <- _ _. congruence.
        -- injection Htable as _ _ ->. inversion Hpre; subst.
           exists pre, cls, post. now repeat split.
Qed.

(** X2. An element is classified by the first class of the table that
    its class list holds, whatever other classes of the table it holds
    too, and the classification names the element itself with the empty
    string. *)
Theorem castToSourceMappingElement_first_of_table
    (e : Element) (ty : SourceMappingType) (n : Element) (s : string) :
  castToSourceMappingElement e = Some (ty, n, s)
  <-> n = e /\ s = ""
      /\ exists pre cls post,
           CssClassToType = pre ++ (cls, ty) :: post
           /\ contains (classList e) cls = true
           /\ Forall (fun entry => contains (classList e) (fst entry) = false) pre.
Proof.
  unfold castToSourceMappingElement, kindOfClassList.
  destruct (classList e) as [| c cl] eqn:Hcl.
  - split; [discriminate |].
    intros (_ & _ & pre & cls & post & _ & Hcls & _). discriminate.
  - rewrite <- firstClassIn_Some.
    destruct (firstClassIn CssClassToType (c :: cl)) as [ty0 |].
    + split.
      * now intros [= -> <- <-].
      * now intros (-> & -> & [= ->]).
    + split; [discriminate | now intros (_ & _ & ?)].
Qed.

Lemma castNest_unclassified e :
  kindOfClassList (classList e) = None ->
  castToNestSourceMappingElement e
  = match children e with
    | [c] => castToNestSourceMappingElement c
    | _ => None
    end.
Proof.
  destruct e as [cl at_ ch]. cbn [classList children]. intros Hcl.
  cbn [castToNestSourceMappingElement]. unfold castToSourceMappingElement at 1.
  cbn [classList]. rewrite Hcl. now destruct ch as [| c [| d ch]].
Qed.

Lemma castNest_chain e n ty :
  singleChain e n ->
  kindOfClassList (classList n) = Some ty ->
  castToNestSourceMappingElement e = Some (ty, n, "").
Proof.
  intros Hchain Hty. induction Hchain as [e | cl at_ c n Hcl _ IH].
  - now apply castNest_classified.
  - rewrite castNest_single by assumption. now apply IH.
Qed.

Lemma castNest_dead_chain e d :
  singleChain e d ->
  kindOfClassList (classList d) = None ->
  List.length (children d) <> 1%nat ->
  castToNestSourceMappingElement e = None.
Proof.
  intros Hchain Hcl Hlen. induction Hchain as [[cl at_ ch] | cl at_ c n Hcl' _ IH].
  - now apply castNest_dead_end.
  - rewrite castNest_single by assumption. now apply IH.
Qed.

Lemma castNest_outcome e :
  (exists ty n,
      castToNestSourceMappingElement e = Some (ty, n, "")
      /\ singleChain e n /\ kindOfClassList (classList n) = Some ty)
  \/ (castToNestSourceMappingElement e = None
      /\ exists d, singleChain e d
                   /\ kindOfClassList (classList d) = None
                   /\ List.length (children d) <> 1%nat).
Proof.
  induction e as [cl at_ ch IH] using Element_children_ind.
  destruct (kindOfClassList cl) as [ty |] eqn:Hcl.
  - left. exists ty, (Elem cl at_ ch). repeat split; [| constructor | assumption].
    now apply castNest_classified.
  - destruct ch as [| c [| c' ch]].
    + right. split; [now apply castNest_dead_end |].
      exists (Elem cl at_ []). repeat split; [constructor | assumption | discriminate].
    + inversion IH as [| ? ? Hc _]; subst. rewrite castNest_single by assumption.
      destruct Hc as [(ty & n & Hcast & Hchain & Hty) | (Hcast & d & Hchain & Hd & Hlen)].
      * left. exists ty, n. repeat split; [assumption | now constructor | assumption].
      * right. split; [assumption |]. exists d. repeat split; try assumption.
        now constructor.
    + right. split; [now apply castNest_dead_end |].
      exists (Elem cl at_ (c :: c' :: ch)).
      repeat split; [constructor | assumption | discriminate].
Qed.

(** X3. The nested classification yields exactly the first classified
    element below a chain of unclassified elements with one child each,
    with that element's kind; it yields nothing exactly when the chain
    ends in an unclassified element that has no child or several. *)
Theorem castToNestSourceMappingElement_chain
    (e : Element) (ty : SourceMappingType) (n : Element) (s : string) :
  (castToNestSourceMappingElement e = Some (ty, n, s)
   <-> singleChain e n /\ kindOfClassList (classList n) = Some ty /\ s = "")
  /\ (castToNestSourceMappingElement e = None
      <-> exists d, singleChain e d
                    /\ kindOfClassList (classList d) = None
                    /\ List.length (children d) <> 1%nat).
Proof.
  split; split.
  - intros Hcast.
    destruct (castNest_outcome e)
      as [(ty' & n' & Hcast' & Hchain & Hty) | (Hnone & _)]; [| congruence].
    rewrite Hcast in Hcast'. injection Hcast' as -> -> ->. now repeat split.
  - intros (Hchain & Hty & ->). now apply castNest_chain.
  - intros Hnone.
    destruct (castNest_outcome e) as [(ty' & n' & Hcast & _) | (_ & Hdead)];
      [congruence | assumption].
  - intros (d & Hchain & Hcl & Hlen). now apply castNest_dead_chain with d.
Qed.

Lemma In_filterMap {A B : Type} (f : A -> option B) (l : list A) (b : B) :
  In b (filterMap f l) <-> exists a, In a l /\ f a = Some b.
Proof.
  induction l as [| a l IH]; cbn [filterMap].
  - split; [contradiction | now intros (a & [] & _)].
  - destruct (f a) as [b' |] eqn:Hfa; cbn [In]; rewrite IH; split.
    + intros [<- | (a' & Hin & Ha')]; [exists a | exists a']; auto.
    + intros (a' & [<- | Hin] & Ha'); [left; congruence | right; eauto].
    + intros (a' & Hin & Ha'). eauto.
    + intros (a' & [<- | Hin] & Ha'); [congruence | eauto].
Qed.

Lemma filterMap_length {A B : Type} (f : A -> option B) (l : list A) :
  (List.length (filterMap f l) <= List.length l)%nat.
Proof.
  induction l as [| a l IH]; [constructor |].
  cbn [filterMap]. destruct (f a); cbn [List.length]; lia.
Qed.

Lemma In_descendants e n :
  In n (descendants e)
  <-> exists c, In c (children e) /\ (n = c \/ In n (descendants c)).
Proof.
  destruct e as [cl at_ ch]. rewrite descendants_Elem. cbn [children].
  unfold descendantsOfList. rewrite in_flat_map. split.
  - intros (c & Hc & [<- | Hn]); exists c; auto.
  - intros (c & Hc & [-> | Hn]); exists c; cbn [In]; auto.
Qed.

Lemma singleChain_descendant e n :
  singleChain e n -> n = e \/ In n (descendants e).
Proof.
  induction 1 as [e | cl at_ c n _ _ IH]; [now left |].
  right. apply In_descendants. exists c. cbn [children In].
  split; [now left |]. destruct IH; auto.
Qed.

Lemma castNest_entry c ty n s :
  castToNestSourceMappingElement c = Some (ty, n, s) ->
  (n = c \/ In n (descendants c)) /\ castToSourceMappingElement n = Some (ty, n, s).
Proof.
  intros Hcast.
  destruct (castNest_outcome c)
    as [(ty' & n' & Hcast' & Hchain & Hty) | (Hnone & _)]; [| congruence].
  rewrite Hcast in Hcast'. injection Hcast' as -> -> ->.
  split; [now apply singleChain_descendant |].
  unfold castToSourceMappingElement. now rewrite Hty.
Qed.

Lemma castChildren_entry e ty n s :
  In (ty, n, s) (castChildrenToSourceMappingElement e) ->
  In n (descendants e) /\ castToSourceMappingElement n = Some (ty, n, s).
Proof.
  unfold castChildrenToSourceMappingElement. rewrite In_filterMap.
  intros (c & Hc & Hcast). destruct (castNest_entry _ _ _ _ Hcast) as [Hn Hkind].
  split; [| assumption]. apply In_descendants. now exists c.
Qed.

(** X4. The classified children of an element are at most as many as
    its children, and each of them is an element strictly below it that
    is itself classified with the kind of the entry. *)
Theorem castChildrenToSourceMappingElement_entries (e : Element) :
  (List.length (castChildrenToSourceMappingElement e) <= List.length (children e))%nat
  /\ forall ty n s,
       In (ty, n, s) (castChildrenToSourceMappingElement e) ->
       In n (descendants e) /\ castToSourceMappingElement n = Some (ty, n, s).
Proof.
  split; [apply filterMap_length |].
  intros ty n s. apply castChildren_entry.
Qed.

(** ** The path resolver *)

Lemma resolveLoop_shape points : forall points' cur,
  map shape points = map shape points' ->
  resolveLoop cur points = resolveLoop cur points'.
Proof.
  induction points as [| p points IH]; intros [| p' points'] cur Hshape;
    try discriminate; [reflexivity |].
  cbn [map] in Hshape. injection Hshape as Hkind Hindex Hrest.
  cbn [resolveLoop]. rewrite Hkind, Hindex.
  destruct (kind p' =? typeCode CharIndex); [reflexivity |].
  destruct cur as [cur |]; [| reflexivity].
  destruct (index p' >=? _); [reflexivity |].
  destruct (arrayGet _ _) as [[[ty child] s] |]; [| reflexivity].
  destruct (negb _); [reflexivity |]. now apply IH.
Qed.

(** X5. The resolver reads the kind and the index of the points after
    the first and nothing else: the first point and every fingerprint can
    be changed, and a path without any point resolves like a path of a
    root marker alone. *)
Theorem resolveSourceLeaf_reads_kind_and_index (elem : Element)
    (path path' : list ElementPoint) :
  map shape (slice1 path) = map shape (slice1 path') ->
  resolveSourceLeaf elem path = resolveSourceLeaf elem path'.
Proof. intros Hshape. unfold resolveSourceLeaf. now apply resolveLoop_shape. Qed.

Lemma resolveSourceLeaf_reads_kind_and_index_sample :
  resolveSourceLeaf Sample.doc [mkPoint 4 0 "a"; mkPoint 1 0 "b"; mkPoint 0 0 "c"]
  = resolveSourceLeaf Sample.doc [mkPoint 9 7 ""; mkPoint 1 0 ""; mkPoint 0 0 "z"].
Proof. apply resolveSourceLeaf_reads_kind_and_index. reflexivity. Defined.





Lemma typeCode_injective ty ty' : typeCode ty = typeCode ty' -> ty = ty'.
Proof. destruct ty, ty'; cbn; intros H; (reflexivity || discriminate H). Qed.






Lemma resolveLoop_success points : forall cur node k,
  resolveLoop cur points = Return (Some (node, k)) ->
  follow cur points = Some node /\ k = 0
  \/ exists pre p rest,
       points = pre ++ p :: rest
       /\ kind p = typeCode CharIndex
       /\ follow cur pre = Some node
       /\ k = index p.
Proof.
  induction points as [| p points IH]; intros cur node k; cbn [resolveLoop follow].
  - intros [= <- <-]. now left.
  - destruct (Z.eqb_spec (kind p) (typeCode CharIndex)) as [Hchar | Hkind].
    + intros [= <- <-]. right. now exists [], p, points.
    + destruct cur as [cur |]; [| discriminate].
      destruct (index p >=? _); [discriminate |].
      unfold selectChild.
      destruct (arrayGet _ _) as [[[ty child] s] |] eqn:Hget; [| discriminate].
      destruct (kind p =? typeCode ty) eqn:Hty; [| discriminate]. cbn [negb].
      intros Hrest. destruct (IH _ _ _ Hrest)
        as [Hfollow | (pre & q & rest & -> & Hq & Hpre & ->)]; [now left |].
      right. exists (p :: pre), q, rest. repeat split; [assumption |].
      cbn [follow]. destruct (Z.eqb_spec (kind p) (typeCode CharIndex));
        [contradiction |].
      unfold selectChild. now rewrite Hget, Hty.
Qed.

(** X8. The resolver succeeds in exactly two ways: the points after the
    first, none of them a [CharIndex] point, lead from the first page to
    the element returned, with offset zero; or the points before the
    first [CharIndex] point lead to it, with that point's index as the
    offset. *)
Theorem resolveSourceLeaf_success (elem : Element) (path : list ElementPoint)
    (node : option Element) (k : Z) :
  let page := hd_error (getElementsByClassName elem "typst-page") in
  resolveSourceLeaf elem path = Return (Some (node, k))
  <-> (follow page (slice1 path) = Some node /\ k = 0
       \/ exists pre p rest,
            slice1 path = pre ++ p :: rest
            /\ kind p = typeCode CharIndex
            /\ follow page pre = Some node
            /\ k = index p).
Proof.
  intros page. unfold resolveSourceLeaf. fold page. split.
  - apply resolveLoop_success.
  - intros [[Hfollow ->] | (pre & p & rest & -> & Hp & Hfollow & ->)].
    + rewrite <- (app_nil_r (slice1 path)).
      now rewrite (resolveLoop_follow _ _ _ _ Hfollow).
    + rewrite (resolveLoop_follow _ _ _ _ Hfollow). cbn [resolveLoop].
      now rewrite Hp, Z.eqb_refl.
Qed.

(** ** The click locator *)

Lemma backgroundFrom_nearest doc pageNumber elem up i :
  (exists j,
      (j <= i)%nat
      /\ backgroundFrom doc pageNumber elem up i = j :: up
      /\ isBackgroundOf doc pageNumber (j :: up) = true
      /\ forall k, (j < k <= i)%nat -> isBackgroundOf doc pageNumber (k :: up) = false)
  \/ (backgroundFrom doc pageNumber elem up i = elem
      /\ forall k, (k <= i)%nat -> isBackgroundOf doc pageNumber (k :: up) = false).
Proof.
  induction i as [| i IH]; cbn [backgroundFrom].
  - destruct (isBackgroundOf doc pageNumber (O :: up)) eqn:Hbg.
    + left. exists O. repeat split; [lia | assumption | intros k Hk; lia].
    + right. split; [reflexivity |]. intros k Hk. now replace k with O by lia.
  - destruct (isBackgroundOf doc pageNumber (S i :: up)) eqn:Hbg.
    + left. exists (S i). repeat split; [lia | assumption | intros k Hk; lia].
    + destruct IH as [(j & Hj & Hres & Hbgj & Hbetween) | (Hres & Hnone)].
      * left. exists j. repeat split; [lia | assumption | assumption |].
        intros k Hk. destruct (Nat.eq_dec k (S i)) as [-> | Hne]; [assumption |].
        apply Hbetween. lia.
      * right. split; [assumption |]. intros k Hk.
        destruct (Nat.eq_dec k (S i)) as [-> | Hne]; [assumption |].
        apply Hnone. lia.
Qed.

(** X9. The background of a page element is the nearest element among
    the page element itself and the siblings before it that has the class
    [typst-page-inner] and the page element's page number; when there is
    none, it is the page element itself.  Siblings after the page element
    are never looked at. *)
Theorem getNthBackgroundRect_nearest (doc : Element) (i : nat) (up : NodeRef)
    (pageNumber : option string) :
  let background := getNthBackgroundRect doc (i :: up) pageNumber in
  (exists j,
      (j <= i)%nat
      /\ background = j :: up
      /\ isBackgroundOf doc pageNumber (j :: up) = true
      /\ forall k, (j < k <= i)%nat -> isBackgroundOf doc pageNumber (k :: up) = false)
  \/ (background = i :: up
      /\ forall k, (k <= i)%nat -> isBackgroundOf doc pageNumber (k :: up) = false).
Proof. intros background. apply backgroundFrom_nearest. Qed.

Lemma castRef_kind doc r e ty :
  nodeAt doc r = Some e ->
  kindOfClassList (classList e) = Some ty ->
  castRef doc r = Some (ty, r, "").
Proof.
  intros He Hty. unfold castRef, castToSourceMappingElement. now rewrite He, Hty.
Qed.

Lemma isPage_castRef doc r e :
  nodeAt doc r = Some e ->
  isPage (castRef doc r) = true <-> kindOfClassList (classList e) = Some Page.
Proof.
  intros He. unfold castRef, castToSourceMappingElement. rewrite He.
  destruct (kindOfClassList (classList e)) as [ty |]; cbn [isPage].
  - rewrite Z.eqb_eq. split.
    + intros Hcode. now rewrite (typeCode_injective _ _ Hcode).
    + now intros [= ->].
  - split; discriminate.
Qed.

Lemma not_empty_eqb s : s <> "" -> String.eqb s "" = false.
Proof. intros Hs. now apply String.eqb_neq. Qed.

(** X10. A click inside a page: when an ancestor of the target is
    classified as a page, nothing between the target and it is a page or
    the root, and it carries a page number, a width and a height that are
    not empty, [resolveFrameLoc] returns the location computed from these
    and from the rectangle of the page's background, and the handler sends
    that location once and then starts one ripple at the click, relative
    to the body. *)
Theorem click_inside_page (host : Host) (doc : Element) (docRoot triggerWindow : NodeRef)
    (event : MouseEvent) (pre anc : NodeRef) (e : Element) (pn ws hs : string) :
  passes doc docRoot pre anc ->
  nodeAt doc anc = Some e ->
  kindOfClassList (classList e) = Some Page ->
  getAttribute e "data-page-number" = Some pn ->
  getAttribute e "data-page-width" = Some ws ->
  getAttribute e "data-page-height" = Some hs ->
  pn <> "" -> ws <> "" -> hs <> "" ->
  let pageRect := getBoundingClientRect host (getNthBackgroundRect doc anc (Some pn)) in
  let basePos := getBoundingClientRect host triggerWindow in
  let frameLoc :=
    {| page_no := (parseInt host pn + 1)%float;
       x := ((clientX event - left pageRect) / width pageRect * parseFloat host ws)%float;
       y := ((clientY event - top pageRect) / height pageRect * parseFloat host hs)%float |} in
  resolveFrameLoc host doc docRoot event (pre ++ anc) = Some frameLoc
  /\ Click.sourceMappingHandler host doc docRoot triggerWindow event (pre ++ anc)
     = [ Click.WebsocketSend "src-point " frameLoc;
         Click.Ripple (clientX event - left basePos)%float (clientY event - top basePos)%float
           "typst-debug-react-ripple" "typst-debug-react-ripple-effect .4s linear" ].
Proof.
  intros Hpasses He Hpage Hpn Hws Hhs Npn Nws Nhs pageRect basePos frameLoc.
  assert (Hloc : resolveFrameLoc host doc docRoot event (pre ++ anc) = Some frameLoc).
  { unfold resolveFrameLoc.
    rewrite (ascend_first_page _ _ _ _ e Hpasses He)
      by (now apply (isPage_castRef _ _ _ He)).
    rewrite (castRef_kind _ _ _ _ He Hpage).
    unfold attrOf. rewrite He, Hpn, Hws, Hhs. cbn [falsy].
    now rewrite !not_empty_eqb by assumption. }
  split; [exact Hloc |]. unfold Click.sourceMappingHandler. now rewrite Hloc.
Qed.

Lemma click_inside_page_sample :
  let host := SampleHost.host Sample.rect in
  let doc := Sample.clickDoc "600" "800" in
  resolveFrameLoc host doc Sample.clickRoot Sample.click Sample.clickTarget
  = Some {| page_no := 1; x := 150; y := 200 |}
  /\ Click.sourceMappingHandler host doc Sample.clickRoot [] Sample.click Sample.clickTarget
     = [ Click.WebsocketSend "src-point " {| page_no := 1; x := 150; y := 200 |};
         Click.Ripple 50 25
           "typst-debug-react-ripple" "typst-debug-react-ripple-effect .4s linear" ].
Proof.
  intros host doc.
  apply (click_inside_page host doc Sample.clickRoot [] Sample.click
           [0%nat; 0%nat] [1%nat; 0%nat]
           (Elem ["typst-page"] (Sample.pageAttributes "600" "800")
              [Elem ["typst-group"] [] [Sample.text]])
           "0" "600" "800");
    try reflexivity; try discriminate.
  cbn. repeat split; discriminate.
Defined.

(** X11. A click outside every page: when the walk from the target
    reaches the root, the root included, without meeting an element
    classified as a page, [resolveFrameLoc] returns [undefined], whatever
    lies above the root, and the handler sends nothing and starts no
    ripple. *)
Theorem click_outside_page (host : Host) (doc : Element) (docRoot triggerWindow : NodeRef)
    (event : MouseEvent) (pre : NodeRef) (e : Element) :
  passes doc docRoot pre docRoot ->
  nodeAt doc docRoot = Some e ->
  kindOfClassList (classList e) <> Some Page ->
  resolveFrameLoc host doc docRoot event (pre ++ docRoot) = None
  /\ Click.sourceMappingHandler host doc docRoot triggerWindow event (pre ++ docRoot) = [].
Proof.
  intros Hpasses He Hpage.
  assert (Hloc : resolveFrameLoc host doc docRoot event (pre ++ docRoot) = None).
  { unfold resolveFrameLoc. rewrite (ascend_reaches_root _ _ _ e Hpasses He);
      [reflexivity |].
    destruct (isPage (castRef doc docRoot)) eqn:Hp; [| reflexivity].
    now apply (isPage_castRef _ _ _ He) in Hp. }
  split; [exact Hloc |]. unfold Click.sourceMappingHandler. now rewrite Hloc.
Qed.

Lemma click_outside_page_sample :
  let host := SampleHost.host Sample.rect in
  let doc := Sample.clickDoc "600" "800" in
  resolveFrameLoc host doc Sample.clickRoot Sample.click [0%nat; 0%nat] = None
  /\ Click.sourceMappingHandler host doc Sample.clickRoot [] Sample.click [0%nat; 0%nat] = [].
Proof.
  intros host doc.
  apply (click_outside_page host doc Sample.clickRoot [] Sample.click [0%nat]
           (Elem ["typst-doc"] []
              [ Elem ["typst-page-inner"] [("data-page-number", "0")] [];
                Elem ["typst-page"] (Sample.pageAttributes "600" "800")
                  [Elem ["typst-group"] [] [Sample.text]] ]));
    try reflexivity; try discriminate.
  cbn. repeat split; discriminate.
Defined.

(** ** Handler registration *)

Lemma step_elsewhere s op r :
  opRoot op <> r -> Handlers.roots (Handlers.step s op) r = Handlers.roots s r.
Proof.
  destruct op as [docRoot | docRoot]; cbn [opRoot Handlers.step]; intros Hr.
  - apply install_elsewhere. congruence.
  - apply remove_elsewhere. congruence.
Qed.

Lemma run_elsewhere ops : forall s r,
  Forall (fun op => opRoot op <> r) ops ->
  Handlers.roots (Handlers.run ops s) r = Handlers.roots s r.
Proof.
  unfold Handlers.run. induction ops as [| op ops IH]; intros s r Hall; [reflexivity |].
  inversion Hall as [| ? ? Hop Hrest]; subst. cbn [fold_left].
  rewrite IH by assumption. now apply step_elsewhere.
Qed.

(** X12. Installing and removing on other roots leaves a root as it is:
    its stored handler and its click listeners are touched by the
    operations on the root itself only. *)
Theorem handlers_of_other_roots_kept (ops : list Handlers.Op) (s : Handlers.Store)
    (r : nat) :
  Forall (fun op => opRoot op <> r) ops ->
  Handlers.roots (Handlers.run ops s) r = Handlers.roots s r.
Proof. apply run_elsewhere. Qed.

Lemma handlers_of_other_roots_kept_sample :
  let s := Handlers.run [Handlers.Install 1] Handlers.emptyStore in
  Handlers.roots
    (Handlers.run [Handlers.Install 2; Handlers.Remove 3; Handlers.Install 2] s) 1
  = Handlers.roots s 1.
Proof.
  intros s. apply handlers_of_other_roots_kept.
  repeat constructor; discriminate.
Defined.

Lemma run_app ops ops' s :
  Handlers.run (ops ++ ops') s = Handlers.run ops' (Handlers.run ops s).
Proof. unfold Handlers.run. apply fold_left_app. Qed.

Lemma run_cons op ops s :
  Handlers.run (op :: ops) s = Handlers.run ops (Handlers.step s op).
Proof. reflexivity. Qed.

(** X13. The state of a root is decided by the last operation on it:
    after an installation, whatever happened before on any root and
    whatever happens afterwards on other roots, the root holds the handler
    created by that installation as its stored handler and as its only
    click listener; after a removal it holds neither. *)
Theorem last_operation_decides (before after : list Handlers.Op) (r : nat) :
  Forall (fun op => opRoot op <> r) after ->
  let s := Handlers.run before Handlers.emptyStore in
  Handlers.roots
    (Handlers.run (before ++ Handlers.Install r :: after) Handlers.emptyStore) r
  = {| Handlers.sourceMappingHandler := Some (Handlers.nextHandler s);
       Handlers.clickListeners := [Handlers.nextHandler s] |}
  /\ Handlers.roots
       (Handlers.run (before ++ Handlers.Remove r :: after) Handlers.emptyStore) r
     = Handlers.freshRoot.
Proof.
  intros Hafter s.
  pose proof (reachable_consistent before r) as Hs. fold s in Hs.
  rewrite !run_app. fold s. rewrite !run_cons. cbn [Handlers.step].
  rewrite !run_elsewhere by assumption.
  split; [now apply install_at | now apply remove_at].
Qed.

Lemma last_operation_decides_sample :
  let before := [Handlers.Install 1; Handlers.Install 2; Handlers.Remove 1] in
  let after := [Handlers.Install 2; Handlers.Remove 3] in
  Handlers.roots
    (Handlers.run (before ++ Handlers.Install 1 :: after) Handlers.emptyStore) 1
  = {| Handlers.sourceMappingHandler := Some 2%nat; Handlers.clickListeners := [2%nat] |}
  /\ Handlers.roots
       (Handlers.run (before ++ Handlers.Remove 1 :: after) Handlers.emptyStore) 1
     = Handlers.freshRoot.
Proof.
  intros before after. apply (last_operation_decides before after 1%nat).
  repeat constructor; discriminate.
Defined.

(** Handlers in the store are older than the next one, and no two roots
    hold the same. *)
Lemma step_fresh s op :
  (forall r h, Handlers.sourceMappingHandler (Handlers.roots s r) = Some h ->
               (h < Handlers.nextHandler s)%nat) ->
  (forall r, Handlers.consistent (Handlers.roots s r)) ->
  (forall r h, Handlers.sourceMappingHandler (Handlers.roots (Handlers.step s op) r) = Some h ->
               (h < Handlers.nextHandler (Handlers.step s op))%nat)
  /\ (Handlers.nextHandler (Handlers.step s op)
      = (if isInstall op then S (Handlers.nextHandler s) else Handlers.nextHandler s)).
Proof.
  intros Hold Hcons. destruct op as [docRoot | docRoot]; cbn [Handlers.step isInstall].
  - rewrite nextHandler_install. split; [| reflexivity]. intros r h.
    destruct (Nat.eq_dec r docRoot) as [-> | Hr].
    + rewrite install_at by apply Hcons. cbn. intros [= <-]. lia.
    + rewrite install_elsewhere by assumption. intros Hh.
      specialize (Hold _ _ Hh). lia.
  - rewrite nextHandler_remove. split; [| reflexivity]. intros r h.
    destruct (Nat.eq_dec r docRoot) as [-> | Hr].
    + rewrite remove_at by apply Hcons. discriminate.
    + rewrite remove_elsewhere by assumption. apply Hold.
Qed.

Lemma step_distinct s op :
  (forall r h, Handlers.sourceMappingHandler (Handlers.roots s r) = Some h ->
               (h < Handlers.nextHandler s)%nat) ->
  (forall r, Handlers.consistent (Handlers.roots s r)) ->
  (forall r r' h, Handlers.sourceMappingHandler (Handlers.roots s r) = Some h ->
                  Handlers.sourceMappingHandler (Handlers.roots s r') = Some h ->
                  r = r') ->
  forall r r' h,
    Handlers.sourceMappingHandler (Handlers.roots (Handlers.step s op) r) = Some h ->
    Handlers.sourceMappingHandler (Handlers.roots (Handlers.step s op) r') = Some h ->
    r = r'.
Proof.
  intros Hold Hcons Hinj r r' h.
  destruct op as [docRoot | docRoot]; cbn [Handlers.step];
    destruct (Nat.eq_dec r docRoot) as [-> | Hr],
             (Nat.eq_dec r' docRoot) as [-> | Hr']; try reflexivity.
  - rewrite install_at by apply Hcons. rewrite install_elsewhere by assumption.
    cbn. intros [= <-] Hh. specialize (Hold _ _ Hh). lia.
  - rewrite install_elsewhere by assumption. rewrite install_at by apply Hcons.
    cbn. intros Hh [= <-]. specialize (Hold _ _ Hh). lia.
  - rewrite !install_elsewhere by assumption. apply Hinj.
  - rewrite remove_at by apply Hcons. discriminate.
  - rewrite remove_elsewhere by assumption. rewrite remove_at by apply Hcons.
    discriminate.
  - rewrite !remove_elsewhere by assumption. apply Hinj.
Qed.

Lemma run_fresh ops : forall s,
  (forall r h, Handlers.sourceMappingHandler (Handlers.roots s r) = Some h ->
               (h < Handlers.nextHandler s)%nat) ->
  (forall r, Handlers.consistent (Handlers.roots s r)) ->
  (forall r r' h, Handlers.sourceMappingHandler (Handlers.roots s r) = Some h ->
                  Handlers.sourceMappingHandler (Handlers.roots s r') = Some h ->
                  r = r') ->
  let s' := Handlers.run ops s in
  (forall r h, Handlers.sourceMappingHandler (Handlers.roots s' r) = Some h ->
               (h < Handlers.nextHandler s')%nat)
  /\ (forall r r' h, Handlers.sourceMappingHandler (Handlers.roots s' r) = Some h ->
                     Handlers.sourceMappingHandler (Handlers.roots s' r') = Some h ->
                     r = r')
  /\ Handlers.nextHandler s'
     = (Handlers.nextHandler s + List.length (filter isInstall ops))%nat.
Proof.
  unfold Handlers.run. induction ops as [| op ops IH]; intros s Hold Hcons Hinj.
  - cbn. repeat split; auto.
  - cbn [fold_left]. destruct (step_fresh s op Hold Hcons) as [Hold' Hnext].
    pose proof (step_distinct s op Hold Hcons Hinj) as Hinj'.
    pose proof (step_consistent s op Hcons) as Hcons'.
    destruct (IH _ Hold' Hcons' Hinj') as (H1 & H2 & H3).
    repeat split; [exact H1 | exact H2 |].
    rewrite H3, Hnext. cbn [filter]. destruct (isInstall op); cbn [List.length]; lia.
Qed.

(** X14. Handlers are never shared or reused: after any installations
    and removals from the start, the handlers created so far are as many
    as the installations, every stored handler is one of them, and no
    two roots hold the same handler. *)
Theorem handlers_never_shared (ops : list Handlers.Op) :
  let s := Handlers.run ops Handlers.emptyStore in
  Handlers.nextHandler s = List.length (filter isInstall ops)
  /\ (forall r h, Handlers.sourceMappingHandler (Handlers.roots s r) = Some h ->
                  (h < Handlers.nextHandler s)%nat
                  /\ Handlers.clickListeners (Handlers.roots s r) = [h])
  /\ (forall r r' h,
        In h (Handlers.clickListeners (Handlers.roots s r)) ->
        In h (Handlers.clickListeners (Handlers.roots s r')) ->
        r = r').
Proof.
  intros s.
  destruct (run_fresh ops Handlers.emptyStore) as (Hold & Hinj & Hnext);
    try (cbn; discriminate); [intros r; reflexivity |].
  fold s in Hold, Hinj, Hnext.
  assert (Hlisten : forall r h,
             In h (Handlers.clickListeners (Handlers.roots s r)) ->
             Handlers.sourceMappingHandler (Handlers.roots s r) = Some h).
  { intros r h. rewrite (reachable_consistent ops r : Handlers.consistent (Handlers.roots s r)).
    destruct (Handlers.sourceMappingHandler (Handlers.roots s r));
      [intros [<- | []]; reflexivity | contradiction]. }
  repeat split.
  - exact Hnext.
  - now apply Hold with r.
  - rewrite (reachable_consistent ops r : Handlers.consistent (Handlers.roots s r)).
    now rewrite H.
  - intros r r' h Hr Hr'. apply (Hinj r r' h); now apply Hlisten.
Qed.

(** ** The document mixin *)

(** X15. Constructing a document whose source mapping is not switched
    off installs one handler on the hooked element and pushes one
    disposer; running that disposer while the element is still hooked
    leaves the element without handler and listener and every other root
    as it was before the construction; running it after the hooked
    element was cleared removes nothing. *)
Theorem construct_then_dispose (ops : list Handlers.Op) (ctx : JumpDoc.Context)
    (docRoot : nat) :
  JumpDoc.sourceMapping ctx <> Some false ->
  JumpDoc.hookedElem ctx = Some docRoot ->
  let s := Handlers.run ops Handlers.emptyStore in
  exists ctx' s',
    JumpDoc.construct ctx s = Return (ctx', s')
    /\ JumpDoc.disposeList ctx' = JumpDoc.disposeList ctx ++ [JumpDoc.removeOnDispose]
    /\ JumpDoc.hookedElem ctx' = Some docRoot
    /\ Handlers.clickListeners (Handlers.roots s' docRoot) = [Handlers.nextHandler s]
    /\ Handlers.roots (JumpDoc.removeOnDispose (Some docRoot) s') docRoot
       = Handlers.freshRoot
    /\ (forall r, r <> docRoot ->
                  Handlers.roots (JumpDoc.removeOnDispose (Some docRoot) s') r
                  = Handlers.roots s r)
    /\ Handlers.clickListeners (Handlers.roots (JumpDoc.removeOnDispose None s') docRoot)
       = [Handlers.nextHandler s].
Proof.
  intros Henabled Hhooked s.
  pose proof (reachable_consistent ops docRoot) as Hs. fold s in Hs.
  pose proof (reachable_consistent (ops ++ [Handlers.Install docRoot]) docRoot) as Hs'.
  rewrite run_app in Hs'. fold s in Hs'. rewrite run_cons in Hs'.
  cbn [Handlers.run fold_left Handlers.step] in Hs'.
  eexists _, (Handlers.installEditorJumpToHandler docRoot s).
  unfold JumpDoc.construct. rewrite Hhooked.
  assert (He : JumpDoc.enabled (JumpDoc.sourceMapping ctx) = true).
  { destruct (JumpDoc.sourceMapping ctx) as [[|] |]; try reflexivity.
    now contradiction Henabled. }
  rewrite He. split; [reflexivity |]. cbn [JumpDoc.disposeList JumpDoc.hookedElem].
  cbn [JumpDoc.removeOnDispose].
  repeat split.
  - now rewrite install_at.
  - now apply remove_at.
  - intros r Hr. rewrite remove_elsewhere by assumption. now apply install_elsewhere.
  - now rewrite install_at.
Qed.

Lemma construct_then_dispose_sample :
  let ctx := JumpDoc.mkContext None (Some 1%nat) [] in
  let s := Handlers.run [Handlers.Install 2] Handlers.emptyStore in
  exists ctx' s',
    JumpDoc.construct ctx s = Return (ctx', s')
    /\ JumpDoc.disposeList ctx' = JumpDoc.disposeList ctx ++ [JumpDoc.removeOnDispose]
    /\ JumpDoc.hookedElem ctx' = Some 1%nat
    /\ Handlers.clickListeners (Handlers.roots s' 1) = [Handlers.nextHandler s]
    /\ Handlers.roots (JumpDoc.removeOnDispose (Some 1%nat) s') 1 = Handlers.freshRoot
    /\ (forall r, r <> 1%nat ->
                  Handlers.roots (JumpDoc.removeOnDispose (Some 1%nat) s') r
                  = Handlers.roots s r)
    /\ Handlers.clickListeners (Handlers.roots (JumpDoc.removeOnDispose None s') 1)
       = [Handlers.nextHandler s].
Proof.
  intros ctx s.
  apply (construct_then_dispose [Handlers.Install 2] ctx 1%nat);
    [discriminate | reflexivity].
Defined.

(** ** The scroll heuristic *)

(** X16. When the ratio of the viewport to the page is undefined (NaN,
    as for a page of width zero in a viewport of width zero), neither
    test of the single-column case holds and the scroll goes to one of the
    two column adjustments; when in addition the anchor-adjusted offset or
    the threshold is NaN, it goes to the left-aligned one. *)
Theorem scrollTo_undefined_ratio (previewMode : PreviewMode) (win : Window)
    (pageRect : DOMRect) (pageNo innerLeft innerTop : float) :
  previewMode <> Slide ->
  Scroll.widthOccupied win pageRect = nan ->
  let xOffset := Scroll.xOffset win innerLeft in
  let pageAdjust := Scroll.pageAdjust win pageRect in
  exists target,
    scrollTo previewMode win pageRect pageNo innerLeft innerTop
    = [ WindowScrollTo "smooth" target (Scroll.yOffset win innerTop);
        TriggerRipple (Scroll.left_ win innerLeft) (Scroll.top_ win innerTop)
          "typst-jump-ripple" "typst-jump-ripple-effect .4s linear" ]
    /\ target = (if (pageAdjust <? xOffset)%float then pageAdjust
                 else Scroll.pageAdjustLeft win pageRect)
    /\ (xOffset = nan \/ pageAdjust = nan -> target = Scroll.pageAdjustLeft win pageRect).
Proof.
  intros Hmode Hnan xOffset pageAdjust.
  destruct previewMode; [| contradiction]. cbn [scrollTo isSlide].
  unfold Scroll.scrollTarget. rewrite Hnan.
  change (90 <=? nan)%float with false. change (nan <? 50)%float with false.
  cbn [orb]. fold xOffset pageAdjust.
  eexists. split; [reflexivity |]. split; [reflexivity |].
  intros [-> | ->].
  - now replace (pageAdjust <? nan)%float with false
      by (symmetry; apply Bool.not_true_is_false; rewrite ltb_spec;
          destruct (Prim2SF pageAdjust) as [| | | [] ? ?]; discriminate).
  - now replace (nan <? xOffset)%float with false
      by (symmetry; apply Bool.not_true_is_false; rewrite ltb_spec;
          destruct (Prim2SF xOffset) as [| | | [] ? ?]; discriminate).
Qed.

Lemma scrollTo_undefined_ratio_sample :
  let win := mkWindow 0 0 (mkRect 0 0 0 0) in
  let pageRect := mkRect 0 0 0 0 in
  exists target,
    scrollTo Doc win pageRect 1 10 20
    = [ WindowScrollTo "smooth" target (Scroll.yOffset win 20);
        TriggerRipple (Scroll.left_ win 10) (Scroll.top_ win 20)
          "typst-jump-ripple" "typst-jump-ripple-effect .4s linear" ]
    /\ target = (if (Scroll.pageAdjust win pageRect <? Scroll.xOffset win 10)%float
                 then Scroll.pageAdjust win pageRect
                 else Scroll.pageAdjustLeft win pageRect)
    /\ (Scroll.xOffset win 10 = nan \/ Scroll.pageAdjust win pageRect = nan ->
        target = Scroll.pageAdjustLeft win pageRect).
Proof.
  intros win pageRect.
  apply (scrollTo_undefined_ratio Doc win pageRect 1 10 20);
    [discriminate | reflexivity].
Defined.

Lemma div_by_zero_infinite n :
  (0 <? n)%float = true \/ (n <? 0)%float = true ->
  exists sign, Prim2SF (n / 0)%float = S754_infinity sign
               /\ (sign = false <-> (0 <? n)%float = true).
Proof.
  rewrite !ltb_spec, div_spec.
  change (Prim2SF 0) with (S754_zero false).
  destruct (Prim2SF n) as [sn | sn | | sn m e]; cbn.
  - intros [H | H]; discriminate H.
  - intros _. exists sn. destruct sn; cbn; intuition (auto; discriminate).
  - intros [H | H]; discriminate H.
  - intros _. exists sn. destruct sn; cbn; intuition (auto; discriminate).
Qed.

(** X17. A page rectangle of width zero in a viewport whose width is
    not zero counts as the single-column case: the ratio is infinite, and
    the scroll goes to the anchor-adjusted offset. *)
Theorem scrollTo_zero_width_page (previewMode : PreviewMode) (win : Window)
    (pageRect : DOMRect) (pageNo innerLeft innerTop : float) :
  previewMode <> Slide ->
  width pageRect = 0%float ->
  (0 <? 100 * 100 * Scroll.pw win)%float = true
  \/ (100 * 100 * Scroll.pw win <? 0)%float = true ->
  scrollTo previewMode win pageRect pageNo innerLeft innerTop
  = [ WindowScrollTo "smooth" (Scroll.xOffset win innerLeft) (Scroll.yOffset win innerTop);
      TriggerRipple (Scroll.left_ win innerLeft) (Scroll.top_ win innerTop)
        "typst-jump-ripple" "typst-jump-ripple-effect .4s linear" ].
Proof.
  intros Hmode Hwidth Hsign.
  destruct previewMode; [| contradiction]. cbn [scrollTo isSlide].
  unfold Scroll.scrollTarget, Scroll.widthOccupied. rewrite Hwidth.
  destruct (div_by_zero_infinite _ Hsign) as (sign & Hinf & _).
  rewrite leb_spec, ltb_spec, Hinf.
  now destruct sign.
Qed.

Lemma scrollTo_zero_width_page_sample :
  scrollTo Doc Sample.window (mkRect 20 100 0 0) 1 300 500
  = [ WindowScrollTo "smooth" (Scroll.xOffset Sample.window 300)
        (Scroll.yOffset Sample.window 500);
      TriggerRipple (Scroll.left_ Sample.window 300) (Scroll.top_ Sample.window 500)
        "typst-jump-ripple" "typst-jump-ripple-effect .4s linear" ].
Proof.
  apply scrollTo_zero_width_page; [discriminate | reflexivity | left; reflexivity].
Defined.

(** ** The path resolver, its failures *)

Lemma resolveLoop_undefined points : forall cur,
  resolveLoop cur points = Return None ->
  exists pre p rest node,
    points = pre ++ p :: rest
    /\ follow cur pre = Some (Some node)
    /\ kind p <> typeCode CharIndex
    /\ (Z.of_nat (List.length (castChildrenToSourceMappingElement node)) <= index p
        \/ exists ty child s,
             arrayGet (castChildrenToSourceMappingElement node) (index p)
             = Some (ty, child, s)
             /\ kind p <> typeCode ty).
Proof.
  induction points as [| p points IH]; intros cur; cbn [resolveLoop]; [discriminate |].
  destruct (Z.eqb_spec (kind p) (typeCode CharIndex)) as [| Hkind]; [discriminate |].
  destruct cur as [cur |]; [| discriminate].
  destruct (Z.geb_spec (index p)
              (Z.of_nat (List.length (castChildrenToSourceMappingElement cur))))
    as [Hge | Hlt].
  - intros _. exists [], p, points, cur. repeat split; [assumption |]. left. lia.
  - destruct (arrayGet _ _) as [[[ty child] s] |] eqn:Hget; [| discriminate].
    destruct (Z.eqb_spec (kind p) (typeCode ty)) as [Hty | Hty]; cbn [negb].
    + intros Hrest.
      destruct (IH _ Hrest) as (pre & q & rest & node & -> & Hfollow & Hq & Hbad).
      exists (p :: pre), q, rest, node. repeat split; try assumption.
      cbn [follow]. destruct (Z.eqb_spec (kind p) (typeCode CharIndex));
        [contradiction |].
      unfold selectChild. rewrite Hget.
      now destruct (Z.eqb_spec (kind p) (typeCode ty)).
    + intros _. exists [], p, points, cur. repeat split; [assumption |].
      right. now exists ty, child, s.
Qed.

(** X18. The resolver returns [undefined] exactly when, after points
    that lead to an element, a point that is no [CharIndex] point has an
    index at or past the end of that element's classified children, or
    names a classified child of another kind. *)
Theorem resolveSourceLeaf_undefined (elem : Element) (path : list ElementPoint) :
  let page := hd_error (getElementsByClassName elem "typst-page") in
  resolveSourceLeaf elem path = Return None
  <-> exists pre p rest node,
        slice1 path = pre ++ p :: rest
        /\ follow page pre = Some (Some node)
        /\ kind p <> typeCode CharIndex
        /\ (Z.of_nat (List.length (castChildrenToSourceMappingElement node)) <= index p
            \/ exists ty child s,
                 arrayGet (castChildrenToSourceMappingElement node) (index p)
                 = Some (ty, child, s)
                 /\ kind p <> typeCode ty).
Proof.
  intros page. unfold resolveSourceLeaf. fold page. split.
  - apply resolveLoop_undefined.
  - intros (pre & p & rest & node & -> & Hfollow & Hkind & Hbad).
    rewrite (resolveLoop_follow _ _ _ _ Hfollow).
    destruct Hbad as [Hrange | (ty & child & s & Hget & Hty)].
    + now apply resolveLoop_out_of_range.
    + now apply resolveLoop_kind_mismatch with ty child s.
Qed.



Lemma follow_prefix pre : forall cur rest node,
  follow cur (pre ++ rest) = Some node ->
  exists mid, follow cur pre = Some mid.
Proof.
  induction pre as [| p pre IH]; intros cur rest node; cbn [app follow]; [eauto |].
  destruct (kind p =? typeCode CharIndex); [discriminate |].
  destruct cur as [c |]; [| discriminate].
  destruct (selectChild c p); [apply IH | discriminate].
Qed.

(** X20. Success is closed under shortening: when a path without
    [CharIndex] point resolves, every path that stops earlier resolves
    too, to an element with offset zero. *)
Theorem resolveSourceLeaf_prefix (elem : Element) (root : ElementPoint)
    (pre rest : list ElementPoint) (node : option Element) :
  Forall (fun p => kind p <> typeCode CharIndex) (pre ++ rest) ->
  resolveSourceLeaf elem (root :: pre ++ rest) = Return (Some (node, 0)) ->
  exists mid, resolveSourceLeaf elem (root :: pre) = Return (Some (mid, 0)).
Proof.
  unfold resolveSourceLeaf, slice1. cbn [tl]. intros Hall Hloop.
  apply resolveLoop_success in Hloop.
  destruct Hloop as [[Hfollow _] | (pre' & p & rest' & Heq & Hp & _)].
  - destruct (follow_prefix _ _ _ _ Hfollow) as (mid & Hmid). exists mid.
    rewrite <- (app_nil_r pre). now rewrite (resolveLoop_follow _ _ _ _ Hmid).
  - exfalso. rewrite Heq in Hall. rewrite Forall_forall in Hall.
    apply (Hall p); [| assumption]. apply in_or_app. right. now left.
Qed.

Lemma resolveSourceLeaf_prefix_sample :
  exists mid,
    resolveSourceLeaf Sample.doc (Sample.root :: [mkPoint 1 0 ""])
    = Return (Some (mid, 0)).
Proof.
  apply (resolveSourceLeaf_prefix Sample.doc Sample.root [mkPoint 1 0 ""]
           [mkPoint 0 0 ""] (Some Sample.text)).
  - repeat constructor; discriminate.
  - reflexivity.
Defined.

(** ** Wrappers, one after another *)

(** X21. Any number of wrappers put one after another on the descent
    chain of a path, each with an unclassified class list of its own,
    leaves the result of the resolver as it is. *)
Theorem resolveSourceLeaf_wrapSteps (T T' : Element) (path : list ElementPoint) :
  wrapSteps (slice1 path) T T' ->
  resolveSourceLeaf T' path = resolveSourceLeaf T path.
Proof.
  induction 1 as [T | T T' T'' (wcl & wat & Hwcl & Hwrap) _ IH]; [reflexivity |].
  rewrite IH. now apply resolveSourceLeaf_wrapDescent with wcl wat.
Qed.

(** A wrapper around the text of the group, then another around the
    page. *)
Lemma resolveSourceLeaf_wrapSteps_sample :
  let path := [Sample.root; mkPoint 1 0 ""; mkPoint 0 0 ""] in
  let group' := Elem ["typst-group"] [] [Elem ["wrapper"] [] [Sample.text]] in
  let page' := Elem ["typst-page"] [] [Elem [] [] [group']; Sample.text] in
  resolveSourceLeaf (Elem [] [] [Elem [] [("id", "outer")] [page']]) path
  = resolveSourceLeaf Sample.doc path.
Proof.
  intros path group' page'. apply resolveSourceLeaf_wrapSteps.
  apply wrapSteps_more with (Elem [] [] [page']).
  - exists ["wrapper"], []. split; [reflexivity |].
    apply (Wrap.wrapDescent_chain _ _ [] [] [Sample.page] [page'] Sample.page page').
    + apply (Wrap.atFirstPage_here _ _ [] []); reflexivity.
    + apply (Wrap.wrapChain_below _ _ ["typst-page"] [] []
               (Elem [] [] [Sample.group]) [Sample.text] (Elem [] [] [group'])
               (mkPoint 1 0 "") [mkPoint 0 0 ""] Group Sample.group "" group');
        [discriminate | reflexivity | reflexivity | |].
      * apply (Wrap.wrapChain_here _ _ ["typst-group"] [] [] Sample.text []
                 (Elem ["wrapper"] [] [Sample.text]) (mkPoint 0 0 "") []
                 (Text, Sample.text, ""));
          [discriminate | reflexivity | reflexivity | apply Wrap.wrapNest_here].
      * apply Wrap.nestReplace_down; [reflexivity |].
        apply Wrap.nestReplace_here. discriminate.
  - apply wrapSteps_more with (Elem [] [] [Elem [] [("id", "outer")] [page']]);
      [| apply wrapSteps_none].
    exists [], [("id", "outer")]. split; [reflexivity |].
    apply (Wrap.wrapDescent_page _ _ [] [] [page']
             [Elem [] [("id", "outer")] [page']] page').
    apply (Wrap.atFirstPage_here _ _ [] []); reflexivity.
Defined.

(** ** The click locator, outside the root *)

(** X22. A click on a target that is not below the root, in a document
    whose topmost element is unclassified and where no element from the
    target up is a page: the walk runs out of ancestors, [resolveFrameLoc]
    returns [undefined], and the handler sends nothing and starts no
    ripple. *)
Theorem click_runs_out_unclassified (host : Host) (doc : Element)
    (docRoot triggerWindow : NodeRef) (event : MouseEvent) (pre : NodeRef) :
  passes doc docRoot pre [] ->
  docRoot <> [] ->
  kindOfClassList (classList doc) = None ->
  resolveFrameLoc host doc docRoot event (pre ++ []) = None
  /\ Click.sourceMappingHandler host doc docRoot triggerWindow event (pre ++ []) = [].
Proof.
  intros Hpasses Hroot Htop.
  assert (Hcast : castRef doc [] = None).
  { unfold castRef, castToSourceMappingElement. cbn [nodeAt]. now rewrite Htop. }
  assert (Hsame : same [] docRoot = false).
  { unfold same. destruct (list_eq_dec Nat.eq_dec [] docRoot) as [Heq |];
      [now contradiction Hroot | reflexivity]. }
  assert (Hloc : resolveFrameLoc host doc docRoot event (pre ++ []) = None).
  { unfold resolveFrameLoc. rewrite ascend_runs_out; try assumption.
    - now rewrite Hcast.
    - now rewrite Hcast. }
  split; [exact Hloc |]. unfold Click.sourceMappingHandler. now rewrite Hloc.
Qed.

Lemma click_runs_out_unclassified_sample :
  let host := SampleHost.host Sample.rect in
  let doc := Sample.clickDoc "600" "800" in
  resolveFrameLoc host doc Sample.clickRoot Sample.click ([1%nat] ++ []) = None
  /\ Click.sourceMappingHandler host doc Sample.clickRoot [] Sample.click ([1%nat] ++ []) = [].
Proof.
  intros host doc. apply click_runs_out_unclassified; [| discriminate | reflexivity].
  cbn. repeat split; discriminate.
Defined.
